(** * sintatico: a recursive-descent parser with scope checking

    Shallow embedding of [sintatico.py] (classes [Token], [Node] and
    [Parser], [load_tokens] and the main program) and properties of the
    parser: those that its specification states, and others that the code
    shows.

    Conventions of the embedding.
    - The parser object is a record that every method takes and returns
      (explicit state passing); a method that raises returns [Raise].
    - Python's loops and recursion are bounded by a [fuel] argument; every
      loop iteration and every call of a recursive production spends one
      unit.  [Parser.run] supplies a budget that is shown to suffice.
    - Strings are sequences of characters with codes below 256.
    - [variable_scopes] is kept innermost frame first: what Python does at
      the end of its list ([append], [pop], [[-1]], [reversed]) is done
      here at the head.
    - The productions are embedded without the recursion limit of the
      interpreter, which takes two or three calls for each block that the
      input nests.  The main program is embedded with it, and with the
      files that it opens: what the run meets there is given by a
      [World]. *)

From stdpp Require Import gmap strings list.
From Stdlib Require Import ZArith Ascii.

Open Scope string_scope.
Open Scope nat_scope.
Set Warnings "-register-all,-clear-no-such-hyp".

(** ** Exceptions and results *)

Module Token.
(** [class Token]: a (type, value) pair. *)
Record t := new { type : string; value : string }.

(** [Token.__repr__] *)
Definition repr (self : t) : string :=
  "Token(" +:+ type self +:+ ", " +:+ value self +:+ ")".
End Token.

(** [str(token)] for a token that may be [None]. *)
Definition repr_opt (token : option Token.t) : string :=
  match token with
  | Some token => Token.repr token
  | None => "None"
  end.

(** The [RuntimeError]s raised by the parser, one constructor per [raise]. *)
Inductive RuntimeError :=
| UnexpectedToken (token : option Token.t) (type_ : string)
| MismatchedBlockDelimiters
| FunctionAlreadyDefined (func_name : string)
| ParameterAlreadyDefined (param_name : string)
| VariableAlreadyDefined (var_name : string)
| ExpectedVariableDefinition (token : option Token.t)
| UnexpectedEndOfInput
| VariableNotDefined (var_name : string).

(** The text of each error, as the f-strings build it. *)
Definition message (e : RuntimeError) : string :=
  match e with
  | UnexpectedToken token type_ =>
      "Unexpected token: " +:+ repr_opt token +:+ ", expected: " +:+ type_ +:+ "."
  | MismatchedBlockDelimiters => "Syntax error: Mismatched block delimiters."
  | FunctionAlreadyDefined func_name =>
      "Semantic error: Function '" +:+ func_name +:+ "' is already defined."
  | ParameterAlreadyDefined param_name =>
      "Semantic error: Parameter '" +:+ param_name +:+ "' is already defined."
  | VariableAlreadyDefined var_name =>
      "Semantic error: Variable '" +:+ var_name
        +:+ "' is already defined in the current scope."
  | ExpectedVariableDefinition token =>
      "Syntax error: Expected variable definition, found " +:+ repr_opt token +:+ "."
  | UnexpectedEndOfInput => "Syntax error: Unexpected end of input."
  | VariableNotDefined var_name =>
      "Semantic error: Variable '" +:+ var_name +:+ "' is not defined."
  end.

Inductive ErrorKind := SyntaxError | SemanticError.

(** The two error kinds.  The messages carry the kind as their prefix; the
    message of [eat] has none and is a syntax error (an unexpected token
    where a specific kind was required). *)
Definition kind (e : RuntimeError) : ErrorKind :=
  match e with
  | UnexpectedToken _ _ | MismatchedBlockDelimiters
  | ExpectedVariableDefinition _ | UnexpectedEndOfInput => SyntaxError
  | FunctionAlreadyDefined _ | ParameterAlreadyDefined _
  | VariableAlreadyDefined _ | VariableNotDefined _ => SemanticError
  end.

(** What a method call can end with besides a value: a [RuntimeError], which
    the driver catches and prints, or one of the exceptions Python itself
    raises, which the driver does not catch. *)
Inductive exn :=
| Runtime (e : RuntimeError)
| AttributeError      (* [None.type] *)
| IndexError.         (* [[-1]] or [pop()] on an empty list *)

Inductive result (A : Type) :=
| Ok (a : A)
| Raise (e : exn)
| OutOfFuel.
Arguments Ok {A} a.
Arguments Raise {A} e.
Arguments OutOfFuel {A}.

#[global] Instance result_bind : MBind result := λ A B f m,
  match m with
  | Ok a => f a
  | Raise e => Raise e
  | OutOfFuel => OutOfFuel
  end.

(** ** Strings *)

(** [str.isspace] on one character. *)
Definition isspace (c : ascii) : bool :=
  let n := nat_of_ascii c in
  ((9 <=? n)%nat && (n <=? 13)%nat) || ((28 <=? n)%nat && (n <=? 32)%nat)
  || (n =? 133)%nat || (n =? 160)%nat.

Fixpoint lstrip (s : string) : string :=
  match s with
  | String c s' => if isspace c then lstrip s' else s
  | EmptyString => EmptyString
  end.

Definition rstrip (s : string) : string := String.rev (lstrip (String.rev s)).

(** [str.strip()] *)
Definition strip (s : string) : string := rstrip (lstrip s).

(** The string of a line feed, Python's ["\n"]. *)
Definition newline : string := String (ascii_of_nat 10) EmptyString.

(** [s * n] *)
Fixpoint string_repeat (s : string) (n : nat) : string :=
  match n with
  | 0 => ""
  | S n => s +:+ string_repeat s n
  end.

(** [s[n:]] *)
Fixpoint string_drop (n : nat) (s : string) : string :=
  match n, s with
  | S n, String _ s => string_drop n s
  | _, _ => s
  end.

(** Cuts [s] at the first occurrence of [sep], if there is one; [sep] is not
    empty. *)
Fixpoint split_once (sep s : string) : option (string * string) :=
  if String.prefix sep s then Some ("", string_drop (String.length sep) s)
  else
    match s with
    | String c s =>
        match split_once sep s with
        | Some (before, after) => Some (String c before, after)
        | None => None
        end
    | EmptyString => None
    end.

(** [s.split(sep, 1)] *)
Definition split1 (sep s : string) : list string :=
  match split_once sep s with
  | Some (before, after) => [before; after]
  | None => [s]
  end.

(** ** Syntax tree *)

Module Node.
(** [class Node]: type, value and the list of children. *)
Inductive t := mk (type : string) (value : string) (children : list t).

Definition type (self : t) : string := let 'mk ty _ _ := self in ty.
Definition value (self : t) : string := let 'mk _ v _ := self in v.
Definition children (self : t) : list t := let 'mk _ _ c := self in c.

(** [Node.__init__]: [Node(type_)] is [new type_ ""]. *)
Definition new (type_ value : string) : t := mk type_ value [].

(** [add_child] *)
Definition add_child (self child : t) : t :=
  mk (type self) (value self) (children self ++ [child]).

(** [print_tree] *)
Fixpoint print_tree (self : t) (level : nat) : string :=
  let 'mk type_ value children := self in
  let indent := string_repeat "  " level in
  let tree_representation :=
    indent +:+ type_ +:+ "(" +:+ value +:+ ")" +:+ newline in
  foldl (λ tree_representation child,
           tree_representation +:+ print_tree child (S level))
        tree_representation children.
End Node.

(** ** The parser *)

Module Parser.

Record t := mk {
  tokens : list Token.t;
  current : nat;
  block_counter : Z;
  defined_functions : gset string;
  variable_scopes : list (gmap string string)
}.

(** [Parser.__init__] *)
Definition new (tokens : list Token.t) : t :=
  {| tokens := tokens; current := 0; block_counter := 0;
     defined_functions := ∅; variable_scopes := [∅] |}.

Definition set_current (c : nat) (self : t) : t :=
  mk (tokens self) c (block_counter self) (defined_functions self)
     (variable_scopes self).
Definition set_block_counter (b : Z) (self : t) : t :=
  mk (tokens self) (current self) b (defined_functions self)
     (variable_scopes self).
Definition set_defined_functions (d : gset string) (self : t) : t :=
  mk (tokens self) (current self) (block_counter self) d
     (variable_scopes self).
Definition set_variable_scopes (v : list (gmap string string)) (self : t) : t :=
  mk (tokens self) (current self) (block_counter self)
     (defined_functions self) v.

(** [self.current += 1] *)
Definition advance (self : t) : t := set_current (S (current self)) self.

(** [self.variable_scopes.append({})] *)
Definition push_scope (self : t) : t :=
  set_variable_scopes (∅ :: variable_scopes self) self.

(** [self.variable_scopes.pop()] *)
Definition pop_scope (self : t) : result t :=
  match variable_scopes self with
  | _ :: scopes => Ok (set_variable_scopes scopes self)
  | [] => Raise IndexError
  end.

(** [self.variable_scopes[-1]] *)
Definition innermost (self : t) : result (gmap string string) :=
  match variable_scopes self with
  | scope :: _ => Ok scope
  | [] => Raise IndexError
  end.

(** [self.variable_scopes[-1][name] = type_] *)
Definition bind_innermost (name type_ : string) (self : t) : result t :=
  match variable_scopes self with
  | scope :: scopes =>
      Ok (set_variable_scopes (<[name := type_]> scope :: scopes) self)
  | [] => Raise IndexError
  end.

Definition current_token (self : t) : option Token.t :=
  tokens self !! current self.

Definition eat (type_ : string) (self : t) : result (Token.t * t) :=
  match current_token self with
  | Some token =>
      if decide (Token.type token = type_) then
        let self := advance self in
        let self :=
          if decide (type_ = "BLOCK_START") then
            set_block_counter (block_counter self + 1) self
          else if decide (type_ = "BLOCK_END") then
            set_block_counter (block_counter self - 1) self
          else self in
        Ok (token, self)
      else Raise (Runtime (UnexpectedToken (Some token) type_))
  | None => Raise (Runtime (UnexpectedToken None type_))
  end.

(** [var_name in scope] for some frame, innermost first. *)
Fixpoint defined_in (scopes : list (gmap string string)) (var_name : string)
    : bool :=
  match scopes with
  | scope :: scopes =>
      if decide (is_Some (scope !! var_name)) then true
      else defined_in scopes var_name
  | [] => false
  end.

Definition is_variable_defined (var_name : string) (self : t) : bool :=
  defined_in (variable_scopes self) var_name.

(** The [while] loop of [parse_expression]. *)
Fixpoint parse_expression_loop (fuel : nat) (expr_value : string) (self : t)
    : result (string * t) :=
  match fuel with
  | 0 => OutOfFuel
  | S fuel =>
      match current_token self with
      | Some token =>
          if decide (Token.type token ∈ ["COMMAND_END"; "RIGHT_PAREN"; "BLOCK_END"])
          then Ok (expr_value, self)
          else parse_expression_loop fuel
                 (expr_value +:+ (Token.value token +:+ " ")) (advance self)
      | None => Ok (expr_value, self)
      end
  end.

Definition parse_expression (fuel : nat) (self : t) : result (Node.t * t) :=
  '(expr_value, self) ← parse_expression_loop fuel "" self;
  Ok (Node.new "Expression" (strip expr_value), self).

Definition parse_variable_definition (fuel : nat) (self : t)
    : result (Node.t * t) :=
  '(_, self) ← eat "VARIABLE_DEFINITION" self;
  '(var_type, self) ← eat "TYPE" self;
  '(var_name, self) ← eat "IDENTIFIER" self;
  let var_type := Token.value var_type in
  let var_name := Token.value var_name in
  scope ← innermost self;
  if decide (is_Some (scope !! var_name)) then
    Raise (Runtime (VariableAlreadyDefined var_name))
  else
    self ← bind_innermost var_name var_type self;
    let value := var_type +:+ " " +:+ var_name in
    '(value, self) ←
      match current_token self with
      | Some token =>
          if decide (Token.type token = "ASSIGN") then
            '(_, self) ← eat "ASSIGN" self;
            '(expr, self) ← parse_expression fuel self;
            Ok (value +:+ (" = " +:+ Node.value expr), self)
          else Ok (value, self)
      | None => Ok (value, self)
      end;
    '(_, self) ← eat "COMMAND_END" self;
    Ok (Node.new "VariableDefinition" value, self).

Definition parse_generic_statement (self : t) : result (Node.t * t) :=
  match current_token self with
  | None => Raise (Runtime UnexpectedEndOfInput)
  | Some token =>
      if decide (Token.type token = "RETURN") then
        '(_, self) ← eat "RETURN" self;
        '(return_value, self) ← eat "IDENTIFIER" self;
        let return_value := Token.value return_value in
        if is_variable_defined return_value self then
          '(_, self) ← eat "COMMAND_END" self;
          Ok (Node.new "Return" return_value, self)
        else Raise (Runtime (VariableNotDefined return_value))
      else Ok (Node.new "Statement" (Token.value token), advance self)
  end.

(** The two [while] loops of [parse_for_loop], which differ in the token
    type that ends them: "COMMAND_END" for the condition, "RIGHT_PAREN"
    for the increment. *)
Fixpoint parse_for_clause (terminator : string) (fuel : nat)
    (value : string) (self : t) : result (string * t) :=
  match fuel with
  | 0 => OutOfFuel
  | S fuel =>
      match current_token self with
      | Some token =>
          if decide (Token.type token = terminator) then Ok (value, self)
          else if bool_decide (Token.type token = "IDENTIFIER")
                  && negb (is_variable_defined (Token.value token) self)
          then Raise (Runtime (VariableNotDefined (Token.value token)))
          else parse_for_clause terminator fuel
                 (value +:+ (Token.value token +:+ " ")) (advance self)
      | None => Ok (value, self)
      end
  end.

(** The [while] loop of [parse_function_definition] over the parameters. *)
Fixpoint parse_parameters (fuel : nat) (params_node : Node.t) (self : t)
    : result (Node.t * t) :=
  match fuel with
  | 0 => OutOfFuel
  | S fuel =>
      match current_token self with
      | Some token =>
          if decide (Token.type token = "RIGHT_PAREN") then Ok (params_node, self)
          else
            '(param_type, self) ← eat "TYPE" self;
            '(param_name, self) ← eat "IDENTIFIER" self;
            let param_type := Token.value param_type in
            let param_name := Token.value param_name in
            scope ← innermost self;
            if decide (is_Some (scope !! param_name)) then
              Raise (Runtime (ParameterAlreadyDefined param_name))
            else
              self ← bind_innermost param_name param_type self;
              parse_parameters fuel
                (Node.add_child params_node
                   (Node.new "Parameter" (param_type +:+ " " +:+ param_name)))
                self
      | None => Ok (params_node, self)
      end
  end.

(** The productions that call each other.  [parse_block_loop] is the
    [while] loop of [parse_block]. *)
Fixpoint parse_statement_or_block (fuel : nat) (self : t) {struct fuel}
    : result (Node.t * t) :=
  match fuel with
  | 0 => OutOfFuel
  | S fuel =>
      match current_token self with
      | None => Raise AttributeError
      | Some token =>
          if decide (Token.type token = "BLOCK_START") then
            parse_block fuel self
          else if decide (Token.type token = "FUNCTION_DEFINITION") then
            parse_function_definition fuel self
          else if decide (Token.type token = "VARIABLE_DEFINITION") then
            parse_variable_definition fuel self
          else if decide (Token.type token = "IF_CONDITIONAL") then
            parse_if_conditional fuel self
          else if decide (Token.type token = "FOR_LOOP") then
            parse_for_loop fuel self
          else parse_generic_statement self
      end
  end

with parse_block (fuel : nat) (self : t) {struct fuel} : result (Node.t * t) :=
  match fuel with
  | 0 => OutOfFuel
  | S fuel =>
      '(_, self) ← eat "BLOCK_START" self;
      let self := push_scope self in
      '(block_node, self) ← parse_block_loop fuel (Node.new "Block" "") self;
      self ← pop_scope self;
      '(_, self) ← eat "BLOCK_END" self;
      Ok (block_node, self)
  end

with parse_block_loop (fuel : nat) (block_node : Node.t) (self : t)
    {struct fuel} : result (Node.t * t) :=
  match fuel with
  | 0 => OutOfFuel
  | S fuel =>
      match current_token self with
      | Some token =>
          if decide (Token.type token = "BLOCK_END") then Ok (block_node, self)
          else
            '(child, self) ← parse_statement_or_block fuel self;
            parse_block_loop fuel (Node.add_child block_node child) self
      | None => Ok (block_node, self)
      end
  end

with parse_function_definition (fuel : nat) (self : t) {struct fuel}
    : result (Node.t * t) :=
  match fuel with
  | 0 => OutOfFuel
  | S fuel =>
      '(_, self) ← eat "FUNCTION_DEFINITION" self;
      '(func_type, self) ← eat "TYPE" self;
      '(func_name, self) ← eat "IDENTIFIER" self;
      let func_type := Token.value func_type in
      let func_name := Token.value func_name in
      if decide (func_name ∈ defined_functions self) then
        Raise (Runtime (FunctionAlreadyDefined func_name))
      else
        let self :=
          set_defined_functions ({[func_name]} ∪ defined_functions self) self in
        '(_, self) ← eat "LEFT_PAREN" self;
        let self := push_scope self in
        '(params_node, self) ←
          parse_parameters fuel (Node.new "Parameters" "") self;
        '(_, self) ← eat "RIGHT_PAREN" self;
        '(_, self) ← eat "START_STATEMENT" self;
        let func_node :=
          Node.new "FunctionDefinition" (func_name +:+ ": " +:+ func_type) in
        let func_node := Node.add_child func_node params_node in
        '(body, self) ← parse_block fuel self;
        let func_node := Node.add_child func_node body in
        self ← pop_scope self;
        Ok (func_node, self)
  end

with parse_if_conditional (fuel : nat) (self : t) {struct fuel}
    : result (Node.t * t) :=
  match fuel with
  | 0 => OutOfFuel
  | S fuel =>
      '(_, self) ← eat "IF_CONDITIONAL" self;
      '(_, self) ← eat "LEFT_PAREN" self;
      '(condition, self) ← parse_expression fuel self;
      '(_, self) ← eat "RIGHT_PAREN" self;
      '(_, self) ← eat "START_STATEMENT" self;
      let if_node := Node.new "IfConditional" (Node.value condition) in
      '(body, self) ← parse_block fuel self;
      let if_node := Node.add_child if_node body in
      match current_token self with
      | Some token =>
          if decide (Token.type token = "ELSE_CONDITIONAL") then
            '(_, self) ← eat "ELSE_CONDITIONAL" self;
            let else_node := Node.new "ElseConditional" "" in
            '(body, self) ← parse_block fuel self;
            let else_node := Node.add_child else_node body in
            Ok (Node.add_child if_node else_node, self)
          else Ok (if_node, self)
      | None => Ok (if_node, self)
      end
  end

with parse_for_loop (fuel : nat) (self : t) {struct fuel}
    : result (Node.t * t) :=
  match fuel with
  | 0 => OutOfFuel
  | S fuel =>
      '(_, self) ← eat "FOR_LOOP" self;
      '(_, self) ← eat "LEFT_PAREN" self;
      match current_token self with
      | None => Raise AttributeError
      | Some token =>
          if decide (Token.type token = "VARIABLE_DEFINITION") then
            '(init_node, self) ← parse_variable_definition fuel self;
            '(condition, self) ← parse_for_clause "COMMAND_END" fuel "" self;
            let condition_expr := Node.new "Condition" (strip condition) in
            '(_, self) ← eat "COMMAND_END" self;
            '(increment, self) ← parse_for_clause "RIGHT_PAREN" fuel "" self;
            let increment_expr := Node.new "Increment" (strip increment) in
            '(_, self) ← eat "RIGHT_PAREN" self;
            '(_, self) ← eat "START_STATEMENT" self;
            '(loop_body_node, self) ← parse_block fuel self;
            let for_node := Node.new "ForLoop" "" in
            let for_node := Node.add_child for_node init_node in
            let for_node := Node.add_child for_node condition_expr in
            let for_node := Node.add_child for_node increment_expr in
            let for_node := Node.add_child for_node loop_body_node in
            Ok (for_node, self)
          else Raise (Runtime (ExpectedVariableDefinition (Some token)))
      end
  end.

(** The [while] loop of [parse]. *)
Fixpoint parse_loop (fuel : nat) (program_node : Node.t) (self : t)
    : result (Node.t * t) :=
  match fuel with
  | 0 => OutOfFuel
  | S fuel =>
      match current_token self with
      | Some token =>
          if decide (Token.type token = "PROGRAM_END") then Ok (program_node, self)
          else
            '(child, self) ← parse_statement_or_block fuel self;
            parse_loop fuel (Node.add_child program_node child) self
      | None => Ok (program_node, self)
      end
  end.

Definition parse (fuel : nat) (self : t) : result (Node.t * t) :=
  let program_node := Node.new "Program" "" in
  '(_, self) ← eat "PROGRAM_START" self;
  '(program_node, self) ← parse_loop fuel program_node self;
  '(_, self) ← eat "PROGRAM_END" self;
  if decide (block_counter self ≠ 0%Z) then
    Raise (Runtime MismatchedBlockDelimiters)
  else Ok (program_node, self).

(** [Parser(tokens).parse()], with a budget of three units per token. *)
Definition run (tokens : list Token.t) : result (Node.t * t) :=
  parse (3 * length tokens + 4) (new tokens).

End Parser.

(** ** Reading the tokens and writing the tree *)

(** [load_tokens], on the lines that reading the file gives, each with its
    line end. *)
Definition load_tokens (lines : list string) : list Token.t :=
  foldl (λ (tokens : list Token.t) line,
           let parts := split1 ", " (strip line) in
           match parts with
           | [type_; value] => (tokens ++ [Token.new type_ value])%list
           | _ => tokens
           end)
        [] lines.

(** What a run of the main program meets outside its own code: the files
    that it opens and the recursion limit of the interpreter. *)
Record World := {
  (** The lines of "tokens.krn", each with its line end, or [None] if the
      file cannot be opened. *)
  tokens_krn : option (list string);
  (** Whether "tree.krn" can be opened for writing. *)
  tree_krn_opens : bool;
  (** The message of the [RecursionError] that the interpreter raises in a
      run whose calls nest deeper than its limit allows, as they do on some
      hundreds of nested blocks; [None] in a run that stays within the
      limit. *)
  recursion_error : option string
}.

(** How the program ends. *)
Inductive Ending :=
| Written (tree_krn : string)   (* the text written to "tree.krn" *)
| Printed (stdout : string)     (* the line printed for a [RuntimeError] *)
| FileError                     (* the [OSError] of [open], not caught *)
| ParserCrash (e : exn).        (* an exception of the parser that is no
                                   [RuntimeError], not caught *)

(** The main program.  [open] raises an [OSError] on a file that cannot be
    opened.  [except RuntimeError] catches the errors of the parser and the
    [RecursionError] of the interpreter, which is a [RuntimeError], and
    prints them; any other exception leaves the program. *)
Definition main (world : World) : result Ending :=
  match tokens_krn world with
  | None => Ok FileError
  | Some lines =>
      let tokens := load_tokens lines in
      match recursion_error world with
      | Some text => Ok (Printed ("Error: " +:+ text +:+ newline))
      | None =>
          match Parser.run tokens with
          | Ok (syntax_tree, _) =>
              if tree_krn_opens world
              then Ok (Written (Node.print_tree syntax_tree 0))
              else Ok FileError
          | Raise (Runtime e) =>
              Ok (Printed ("Error: " +:+ message e +:+ newline))
          | Raise e => Ok (ParserCrash e)
          | OutOfFuel => OutOfFuel
          end
      end
  end.

(** * Vocabulary of the properties *)

Import Parser.

(** The change [eat] makes to the block counter. *)
Definition delta (type_ : string) : Z :=
  if decide (type_ = "BLOCK_START") then 1
  else if decide (type_ = "BLOCK_END") then -1 else 0.

(** [frame self self']: [self'] reads the same tokens at a cursor that has
    not moved back and has stayed on the input, with the block counter of
    [self], at least its function names, and a scope stack that differs from
    that of [self] in the innermost frame at most. *)
Record frame (self self' : Parser.t) : Prop := Frame {
  frame_tokens : tokens self' = tokens self;
  frame_current : current self ≤ current self';
  frame_bound :
    current self' ≤ length (tokens self) ∨ current self' = current self;
  frame_counter : block_counter self' = block_counter self;
  frame_functions : defined_functions self ⊆ defined_functions self';
  frame_tail : tail (variable_scopes self') = tail (variable_scopes self);
  frame_length : length (variable_scopes self') = length (variable_scopes self)
}.

(** Only the cursor has moved. *)
Record only_cursor (self self' : Parser.t) : Prop := OnlyCursor {
  only_cursor_frame : frame self self';
  only_cursor_functions : defined_functions self' = defined_functions self;
  only_cursor_scopes : variable_scopes self' = variable_scopes self
}.

(** A production that leaves the scope stack as it found it. *)
Definition balanced (self self' : Parser.t) : Prop :=
  frame self self' ∧ current self < current self' ∧
  variable_scopes self' = variable_scopes self.

(** The number of tokens from the cursor on. *)
Definition remaining (self : Parser.t) : nat :=
  length (tokens self) - current self.

(** The parser [self] with [extra] tokens after its own. *)
Definition extend (extra : list Token.t) (self : Parser.t) : Parser.t :=
  Parser.mk (tokens self ++ extra) (current self) (block_counter self)
            (defined_functions self) (variable_scopes self).

(** The number of [FunctionDefinition] nodes of a tree, at all depths. *)
Fixpoint function_definitions (node : Node.t) : nat :=
  let 'Node.mk type_ _ children := node in
  (if decide (type_ = "FunctionDefinition") then 1 else 0)
  + list_sum (map function_definitions children).

(** An accepted production has registered one new name for each function
    definition in its tree. *)
Definition registers (self : Parser.t) (node : Node.t) (self' : Parser.t) : Prop :=
  size (defined_functions self')
  = size (defined_functions self) + function_definitions node.

(** The same for a loop, which adds children to the node it was given. *)
Definition registers_more (self : Parser.t) (node node' : Node.t)
    (self' : Parser.t) : Prop :=
  size (defined_functions self') + function_definitions node
  = size (defined_functions self) + function_definitions node'.

(** The cursor of [self] is at the head of a function definition that
    names [func_name]. *)
Definition at_function_definition (func_name : string) (self : Parser.t) : Prop :=
  ∃ t1 t2 t3,
    tokens self !! current self = Some t1 ∧
    Token.type t1 = "FUNCTION_DEFINITION" ∧
    tokens self !! S (current self) = Some t2 ∧ Token.type t2 = "TYPE" ∧
    tokens self !! S (S (current self)) = Some t3 ∧
    Token.type t3 = "IDENTIFIER" ∧ Token.value t3 = func_name.

(** The tokens [ts] are flattened without a stop: none has the type
    that ends the clause, and those of type "IDENTIFIER" resolve. *)
Definition flattened (terminator : string) (self : Parser.t)
    (ts : list Token.t) : Prop :=
  Forall (λ t, Token.type t ≠ terminator ∧
               (Token.type t = "IDENTIFIER" →
                is_variable_defined (Token.value t) self = true)) ts.

(** The text that flattening [ts] adds to [value]. *)
Definition flatten (value : string) (ts : list Token.t) : string :=
  foldl (λ value t, value +:+ (Token.value t +:+ " ")) value ts.

(** The input stops right after the "(" of a for loop. *)
Definition truncated_for (ts : list Token.t) : Prop :=
  ∃ pre t1 t2,
    ts = (pre ++ [t1; t2])%list ∧
    Token.type t1 = "FOR_LOOP" ∧ Token.type t2 = "LEFT_PAREN".

(** The errors that the productions raise on purpose. *)
Definition classified (x : exn) : Prop :=
  ∃ e, x = Runtime e ∧ e ≠ MismatchedBlockDelimiters ∧ e ≠ UnexpectedEndOfInput.

(** A production raises a classified error, or [AttributeError] on an input
    that stops at the initializer of a for loop. *)
Definition production_raises (self : Parser.t) (x : exn) : Prop :=
  classified x ∨ (x = AttributeError ∧ truncated_for (tokens self)).

(** The number of tokens of type [type_] before the cursor. *)
Definition consumed (type_ : string) (self : Parser.t) : nat :=
  length (filter (λ t, Token.type t = type_) (take (current self) (tokens self))).

(** The consumed "BLOCK_START" tokens minus the consumed "BLOCK_END"
    tokens. *)
Definition consumed_balance (self : Parser.t) : Z :=
  (Z.of_nat (consumed "BLOCK_START" self)
   - Z.of_nat (consumed "BLOCK_END" self))%Z.

(** The trees of the statements of an accepted program. *)
Inductive statement_tree : Node.t → Prop :=
| block_tree children :
    Forall statement_tree children →
    statement_tree (Node.mk "Block" "" children)
| function_tree value parameters body :
    Forall (λ parameter, ∃ text, parameter = Node.mk "Parameter" text [])
           parameters →
    Forall statement_tree body →
    statement_tree
      (Node.mk "FunctionDefinition" value
         [ Node.mk "Parameters" "" parameters; Node.mk "Block" "" body ])
| variable_tree value :
    statement_tree (Node.mk "VariableDefinition" value [])
| if_tree value body :
    Forall statement_tree body →
    statement_tree (Node.mk "IfConditional" value [ Node.mk "Block" "" body ])
| if_else_tree value body else_body :
    Forall statement_tree body → Forall statement_tree else_body →
    statement_tree
      (Node.mk "IfConditional" value
         [ Node.mk "Block" "" body;
           Node.mk "ElseConditional" "" [ Node.mk "Block" "" else_body ] ])
| for_tree init condition increment body :
    Forall statement_tree body →
    statement_tree
      (Node.mk "ForLoop" ""
         [ Node.mk "VariableDefinition" init [];
           Node.mk "Condition" condition [];
           Node.mk "Increment" increment [];
           Node.mk "Block" "" body ])
| return_tree value : statement_tree (Node.mk "Return" value [])
| other_tree value : statement_tree (Node.mk "Statement" value []).

(** The token types at which a statement of its own kind starts, and the
    type that ends the program. *)
Definition keywords : list string :=
  [ "PROGRAM_END"; "BLOCK_START"; "FUNCTION_DEFINITION"; "VARIABLE_DEFINITION";
    "IF_CONDITIONAL"; "FOR_LOOP"; "RETURN" ].

(** The tokens of a parameter list: for each parameter its type, then its
    name. *)
Definition parameter_tokens (params : list (string * string)) : list Token.t :=
  flat_map (λ '(param_type, param_name),
              [ Token.new "TYPE" param_type; Token.new "IDENTIFIER" param_name ])
           params.

(** The children that the parameters add to the "Parameters" node. *)
Definition parameter_nodes (params : list (string * string)) : list Node.t :=
  map (λ '(param_type, param_name),
         Node.mk "Parameter" (param_type +:+ " " +:+ param_name) [])
      params.

(** The frame after the parameters have been bound in it, in order. *)
Definition bind_parameters (scope : gmap string string)
    (params : list (string * string)) : gmap string string :=
  foldl (λ scope '(param_type, param_name), <[param_name := param_type]> scope)
        scope params.

(** Parameters with different names, none of them in [scope]. *)
Definition fresh_parameters (scope : gmap string string)
    (params : list (string * string)) : Prop :=
  NoDup (params.*2) ∧ Forall (λ p, scope !! p.2 = None) params.

(** [binds t_type t_name self self']: the scope stack of [self'] is that of
    [self] with the value of [t_name], which its innermost frame did not
    hold, bound there to the value of [t_type]. *)
Definition binds (t_type t_name : Token.t) (self self' : Parser.t) : Prop :=
  ∃ scope scopes,
    variable_scopes self = scope :: scopes ∧
    scope !! Token.value t_name = None ∧
    variable_scopes self'
    = <[Token.value t_name := Token.value t_type]> scope :: scopes.

(** The nodes of a tree in pre-order, each with its depth below [level]. *)
Fixpoint preorder (node : Node.t) (level : nat) : list (nat * string * string) :=
  let 'Node.mk type_ value children := node in
  (level, type_, value) :: flat_map (λ child, preorder child (S level)) children.

(** The line of a node: two spaces per level, the type, and the value in
    parentheses. *)
Definition row (entry : nat * string * string) : string :=
  let '(level, type_, value) := entry in
  string_repeat "  " level +:+ type_ +:+ "(" +:+ value +:+ ")" +:+ newline.

(** The strings of a list, one after the other. *)
Definition join (strings : list string) : string := foldr String.app "" strings.

(** The number of nodes of a tree. *)
Fixpoint nodes (node : Node.t) : nat :=
  let 'Node.mk _ _ children := node in
  S (list_sum (map nodes children)).

(** [sep] occurs in [s]. *)
Definition contains (sep s : string) : Prop := ∃ a b, s = a +:+ sep +:+ b.

(** The first character of [s] is white space. *)
Definition starts_with_space (s : string) : bool :=
  match s with
  | String c _ => isspace c
  | EmptyString => false
  end.

(** The line of "tokens.krn" that holds a token: its type, the separator,
    its value, and the line end. *)
Definition token_line (token : Token.t) : string :=
  Token.type token +:+ ", " +:+ Token.value token +:+ newline.

(** The characters at which the reading of a text file ends a line: line
    feed and carriage return. *)
Definition line_break (c : ascii) : bool :=
  bool_decide (c = ascii_of_nat 10) || bool_decide (c = ascii_of_nat 13).

(** No character of [s] ends a line. *)
Fixpoint unbroken (s : string) : bool :=
  match s with
  | String c s => negb (line_break c) && unbroken s
  | EmptyString => true
  end.

(** A line as the iteration over a text file gives it: a text in which no
    character ends a line, then a line feed. *)
Definition file_line (line : string) : Prop :=
  ∃ text, line = text +:+ newline ∧ unbroken text = true.

(** The tokens that a line holds without loss: the type has no separator in
    it and no white space at its start, the value is not empty and has no
    white space at its end, and neither has a character that ends a
    line. *)
Definition writable (token : Token.t) : Prop :=
  ¬ contains ", " (Token.type token) ∧
  starts_with_space (Token.type token) = false ∧
  Token.value token ≠ "" ∧
  starts_with_space (String.rev (Token.value token)) = false ∧
  unbroken (Token.type token) = true ∧
  unbroken (Token.value token) = true.

(** ** Inputs of the examples *)

(** [Token(type_, value)] *)
Definition tok (type_ value : string) : Token.t := Token.new type_ value.

(** The token types are those of the scenario; the values of the tokens
    for which the scenario gives none are arbitrary. *)
Definition scenario (v1 v2 v5 v7 v8 v10 v11 : string) : list Token.t :=
  [ tok "PROGRAM_START" v1; tok "VARIABLE_DEFINITION" v2; tok "TYPE" "int";
    tok "IDENTIFIER" "x"; tok "ASSIGN" v5; tok "IDENTIFIER" "1";
    tok "COMMAND_END" v7; tok "RETURN" v8; tok "IDENTIFIER" "x";
    tok "COMMAND_END" v10; tok "PROGRAM_END" v11 ].

(** A name declared before a block and again inside it. *)
Definition shadowing : list Token.t :=
  [ tok "PROGRAM_START" "program";
    tok "VARIABLE_DEFINITION" "var"; tok "TYPE" "int"; tok "IDENTIFIER" "x";
    tok "COMMAND_END" ";";
    tok "BLOCK_START" "{";
    tok "VARIABLE_DEFINITION" "var"; tok "TYPE" "bool"; tok "IDENTIFIER" "x";
    tok "COMMAND_END" ";";
    tok "BLOCK_END" "}";
    tok "RETURN" "return"; tok "IDENTIFIER" "x"; tok "COMMAND_END" ";";
    tok "PROGRAM_END" "end" ].

(** A for loop at the end of the input. *)
Definition truncated : list Token.t :=
  [ tok "PROGRAM_START" "program"; tok "FOR_LOOP" "for"; tok "LEFT_PAREN" "(" ].

(** A "BLOCK_END" where a statement may start, outside any block. *)
Definition stray_block_end : list Token.t :=
  [ tok "PROGRAM_START" "program"; tok "BLOCK_END" "}";
    tok "PROGRAM_END" "end" ].

(** The head of a definition of [main], met in the body of [main]. *)
Definition nested_main : Parser.t :=
  {| tokens :=
       [ tok "FUNCTION_DEFINITION" "def"; tok "TYPE" "int";
         tok "IDENTIFIER" "main"; tok "LEFT_PAREN" "("; tok "RIGHT_PAREN" ")";
         tok "START_STATEMENT" ":"; tok "BLOCK_START" "{";
         tok "FUNCTION_DEFINITION" "def"; tok "TYPE" "int";
         tok "IDENTIFIER" "main" ];
     current := 7; block_counter := 1; defined_functions := {["main"]};
     variable_scopes := [∅; ∅; ∅] |}.

(** A declaration of [x], with [x] in the innermost frame. *)
Definition redefinition : Parser.t :=
  {| tokens :=
       [ tok "VARIABLE_DEFINITION" "var"; tok "TYPE" "int";
         tok "IDENTIFIER" "x"; tok "COMMAND_END" ";" ];
     current := 0; block_counter := 0; defined_functions := ∅;
     variable_scopes := [{["x" := "int"]}; ∅] |}.

(** The same declaration, with [x] in an outer frame only. *)
Definition shadow : Parser.t :=
  {| tokens := tokens redefinition;
     current := 0; block_counter := 1; defined_functions := ∅;
     variable_scopes := [∅; {["x" := "int"]}] |}.

(** A block that defines [y], then a [Return] of [y]. *)
Definition block_then_return : list Token.t :=
  [ tok "BLOCK_START" "{";
    tok "VARIABLE_DEFINITION" "var"; tok "TYPE" "int"; tok "IDENTIFIER" "y";
    tok "COMMAND_END" ";";
    tok "BLOCK_END" "}";
    tok "RETURN" "return"; tok "IDENTIFIER" "y"; tok "COMMAND_END" ";" ].

(** A name declared twice in the same scope. *)
Definition declared_twice : list Token.t :=
  [ tok "PROGRAM_START" "program";
    tok "VARIABLE_DEFINITION" "var"; tok "TYPE" "int"; tok "IDENTIFIER" "x";
    tok "COMMAND_END" ";";
    tok "VARIABLE_DEFINITION" "var"; tok "TYPE" "bool"; tok "IDENTIFIER" "x";
    tok "COMMAND_END" ";";
    tok "PROGRAM_END" "end" ].

(** A name declared in a block and again in a block inside it. *)
Definition declared_in_nested_block : list Token.t :=
  [ tok "PROGRAM_START" "program"; tok "BLOCK_START" "{";
    tok "VARIABLE_DEFINITION" "var"; tok "TYPE" "int"; tok "IDENTIFIER" "x";
    tok "COMMAND_END" ";";
    tok "BLOCK_START" "{";
    tok "VARIABLE_DEFINITION" "var"; tok "TYPE" "bool"; tok "IDENTIFIER" "x";
    tok "ASSIGN" "="; tok "IDENTIFIER" "true"; tok "COMMAND_END" ";";
    tok "BLOCK_END" "}"; tok "BLOCK_END" "}";
    tok "PROGRAM_END" "end" ].

(** A "BLOCK_START" in the condition of a for loop. *)
Definition block_start_in_condition : list Token.t :=
  [ tok "PROGRAM_START" "program";
    tok "FOR_LOOP" "for"; tok "LEFT_PAREN" "(";
    tok "VARIABLE_DEFINITION" "var"; tok "TYPE" "int"; tok "IDENTIFIER" "i";
    tok "COMMAND_END" ";";
    tok "BLOCK_START" "{"; tok "COMMAND_END" ";";
    tok "RIGHT_PAREN" ")"; tok "START_STATEMENT" ":";
    tok "BLOCK_START" "{"; tok "BLOCK_END" "}";
    tok "PROGRAM_END" "end" ].

(** A for loop whose condition names [n], which nothing declares. *)
Definition for_undefined : Parser.t :=
  Parser.new
      [ tok "FOR_LOOP" "for"; tok "LEFT_PAREN" "(";
        tok "VARIABLE_DEFINITION" "var"; tok "TYPE" "int";
        tok "IDENTIFIER" "i"; tok "COMMAND_END" ";";
        tok "IDENTIFIER" "i"; tok "LESS" "<"; tok "IDENTIFIER" "n";
        tok "COMMAND_END" ";" ].

(** An expression that names [y], which nothing declares, and goes on over
    a "BLOCK_START". *)
Definition unchecked_expression : Parser.t :=
  Parser.new [ tok "IDENTIFIER" "y"; tok "PLUS" "+"; tok "BLOCK_START" "{";
               tok "COMMAND_END" ";"; tok "IDENTIFIER" "z" ].

(** Two parameters; the name of the first is bound in the frame outside
    the function. *)
Definition two_parameters : Parser.t :=
  Parser.mk [ tok "TYPE" "int"; tok "IDENTIFIER" "a";
              tok "TYPE" "bool"; tok "IDENTIFIER" "b"; tok "RIGHT_PAREN" ")" ]
            0 0 ∅ [∅; {["a" := "char"]}].

(** A parameter list that repeats the name of its first parameter. *)
Definition repeated_parameter : Parser.t :=
  Parser.mk [ tok "TYPE" "int"; tok "IDENTIFIER" "a";
              tok "TYPE" "bool"; tok "IDENTIFIER" "a"; tok "RIGHT_PAREN" ")" ]
            0 0 ∅ [∅; ∅].

(** Tokens that no production asks for, closing delimiters among them. *)
Definition stray_tokens : list Token.t :=
  [ tok "BLOCK_END" "}"; tok "ELSE_CONDITIONAL" "else"; tok "RIGHT_PAREN" ")";
    tok "PROGRAM_START" "program" ].

(** A [Return] of [y], which nothing declares, with no "COMMAND_END" after
    it. *)
Definition return_undeclared : Parser.t :=
  Parser.new [ tok "RETURN" "return"; tok "IDENTIFIER" "y" ].

(** A for loop over [i], then a [Return] of [i]. *)
Definition counting_loop : Parser.t :=
  Parser.new
    [ tok "FOR_LOOP" "for"; tok "LEFT_PAREN" "(";
      tok "VARIABLE_DEFINITION" "var"; tok "TYPE" "int"; tok "IDENTIFIER" "i";
      tok "ASSIGN" "="; tok "NUMBER" "0"; tok "COMMAND_END" ";";
      tok "IDENTIFIER" "i"; tok "LESS" "<"; tok "NUMBER" "3";
      tok "COMMAND_END" ";";
      tok "IDENTIFIER" "i"; tok "INCREMENT" "++"; tok "RIGHT_PAREN" ")";
      tok "START_STATEMENT" ":"; tok "BLOCK_START" "{"; tok "BLOCK_END" "}";
      tok "RETURN" "return"; tok "IDENTIFIER" "i"; tok "COMMAND_END" ";" ].

(** Inside a block that an outer [x] surrounds: a declaration of [y] and a
    block that declares [x] again. *)
Definition inside_block : Parser.t :=
  Parser.mk
    [ tok "VARIABLE_DEFINITION" "var"; tok "TYPE" "int"; tok "IDENTIFIER" "y";
      tok "COMMAND_END" ";";
      tok "BLOCK_START" "{";
      tok "VARIABLE_DEFINITION" "var"; tok "TYPE" "bool"; tok "IDENTIFIER" "x";
      tok "COMMAND_END" ";";
      tok "BLOCK_END" "}";
      tok "BLOCK_END" "}" ]
    0 1 ∅ [∅; {["x" := "int"]}].

(** The tokens of a program that declares [x], with a value that has the
    separator in it. *)
Definition written_tokens : list Token.t :=
  [ tok "PROGRAM_START" "program"; tok "VARIABLE_DEFINITION" "var";
    tok "TYPE" "int"; tok "IDENTIFIER" "x"; tok "COMMAND_END" ";";
    tok "TEXT" "a, b"; tok "PROGRAM_END" "end" ].

(** A function with a parameter, whose body declares a variable and holds
    a block that declares another. *)
Definition function_with_blocks : list Token.t :=
  [ tok "PROGRAM_START" "program";
    tok "FUNCTION_DEFINITION" "def"; tok "TYPE" "int"; tok "IDENTIFIER" "f";
    tok "LEFT_PAREN" "("; tok "TYPE" "int"; tok "IDENTIFIER" "a";
    tok "RIGHT_PAREN" ")"; tok "START_STATEMENT" ":";
    tok "BLOCK_START" "{";
    tok "VARIABLE_DEFINITION" "var"; tok "TYPE" "int"; tok "IDENTIFIER" "x";
    tok "COMMAND_END" ";";
    tok "BLOCK_START" "{";
    tok "VARIABLE_DEFINITION" "var"; tok "TYPE" "int"; tok "IDENTIFIER" "y";
    tok "COMMAND_END" ";";
    tok "BLOCK_END" "}";
    tok "RETURN" "return"; tok "IDENTIFIER" "a"; tok "COMMAND_END" ";";
    tok "BLOCK_END" "}";
    tok "PROGRAM_END" "end" ].

(** The parser at the head of the function of [function_with_blocks]. *)
Definition at_function : Parser.t :=
  set_current 1 (Parser.new function_with_blocks).

(** The parser at the body of this function: the name of the function is
    registered, and the frame of the parameters is on the stack. *)
Definition at_function_body : Parser.t :=
  {| tokens := function_with_blocks; current := 9; block_counter := 0;
     defined_functions := {["f"]};
     variable_scopes := [{["a" := "int"]}; ∅] |}.

(** * Properties *)

(** ** Reasoning about results *)

Lemma bind_Ok {A B} (f : A → result B) (m : result A) (b : B) :
  m ≫= f = Ok b → ∃ a, m = Ok a ∧ f a = Ok b.
Proof. destruct m; simpl; intros; [eauto | discriminate..]. Qed.

Lemma bind_Raise {A B} (f : A → result B) (m : result A) (e : exn) :
  m ≫= f = Raise e → m = Raise e ∨ ∃ a, m = Ok a ∧ f a = Raise e.
Proof. destruct m; simpl; intros; [eauto | left; congruence | discriminate]. Qed.

(** Takes a successful run apart, one step at a time. *)
Ltac inv_ok :=
  repeat match goal with
  | H : Ok _ = Ok _ |- _ => injection H as ?; subst
  | H : (_, _) = (_, _) |- _ => injection H as ?; subst
  | H : Raise _ = Ok _ |- _ => discriminate H
  | H : OutOfFuel = Ok _ |- _ => discriminate H
  | H : _ ≫= _ = Ok _ |- _ => apply bind_Ok in H as (? & ? & H)
  | H : (let '(_, _) := ?p in _) = Ok _ |- _ => destruct p
  | H : (if ?c then _ else _) = Ok _ |- _ => destruct c eqn:?
  | H : match ?x with _ => _ end = Ok _ |- _ => destruct x eqn:?
  end.

(** ** The primitives *)

Lemma eat_Ok type_ self token self' :
  eat type_ self = Ok (token, self') →
  current_token self = Some token ∧ Token.type token = type_ ∧
  self' = set_block_counter (block_counter self + delta type_) (advance self).
Proof.
  unfold eat, delta. intros H.
  destruct (current_token self) as [t0|]; [|discriminate].
  destruct (decide (Token.type t0 = type_)); [|discriminate].
  inv_ok. repeat split; try done.
  repeat case_decide; try done.
  destruct self; unfold set_block_counter, advance, set_current; simpl.
  f_equal. lia.
Qed.

Lemma current_token_lt self token :
  current_token self = Some token → current self < length (tokens self).
Proof. apply lookup_lt_Some. Qed.

(** What a successful [eat] leaves behind, field by field. *)
Lemma eat_fields type_ self token self' :
  eat type_ self = Ok (token, self') →
  tokens self' = tokens self ∧
  current self' = S (current self) ∧
  current self < length (tokens self) ∧
  block_counter self' = (block_counter self + delta type_)%Z ∧
  defined_functions self' = defined_functions self ∧
  variable_scopes self' = variable_scopes self.
Proof.
  intros (Htok & _ & ->)%eat_Ok. apply current_token_lt in Htok.
  by repeat split.
Qed.

Lemma pop_scope_Ok self self' :
  pop_scope self = Ok self' →
  self' = set_variable_scopes (tail (variable_scopes self)) self ∧
  variable_scopes self ≠ [].
Proof. unfold pop_scope. destruct (variable_scopes self); intros; by inv_ok. Qed.

Lemma innermost_Ok self scope :
  innermost self = Ok scope → ∃ scopes, variable_scopes self = scope :: scopes.
Proof. unfold innermost. destruct (variable_scopes self); intros; inv_ok; eauto. Qed.

Lemma bind_innermost_Ok name type_ self self' :
  bind_innermost name type_ self = Ok self' →
  ∃ scope scopes, variable_scopes self = scope :: scopes ∧
    self' = set_variable_scopes (<[name := type_]> scope :: scopes) self.
Proof.
  unfold bind_innermost. destruct (variable_scopes self); intros; inv_ok; eauto.
Qed.

(** ** What a successful production leaves unchanged *)

Lemma frame_refl self : frame self self.
Proof. split; auto. Qed.

Lemma frame_trans s1 s2 s3 : frame s1 s2 → frame s2 s3 → frame s1 s3.
Proof.
  intros [Ht1 ? Hb1 ? ? ? ?] [Ht2 ? Hb2 ? ? ? ?].
  split; try congruence; try lia.
  - rewrite Ht1 in Hb2. lia.
  - set_solver.
Qed.

Lemma only_cursor_refl self : only_cursor self self.
Proof. split; auto using frame_refl. Qed.

Create HintDb parser discriminated.
#[local] Hint Resolve frame_refl only_cursor_refl : parser.

(** Computes the change of the block counter for the token types at hand. *)
Ltac eval_delta :=
  repeat match goal with
  | |- context [delta ?s] =>
      let v := eval vm_compute in (delta s) in change (delta s) with v
  | H : context [delta ?s] |- _ =>
      let v := eval vm_compute in (delta s) in change (delta s) with v in H
  end.

(** Collects, for each step of a successful run, what it did to each field. *)
Ltac fields :=
  repeat match goal with
  | H : frame _ _ |- _ => destruct H
  | H : _ ∧ _ |- _ => destruct H
  | H : only_cursor _ _ |- _ => destruct H
  | H : eat _ _ = Ok _ |- _ => apply eat_fields in H as (? & ? & ? & ? & ? & ?)
  | H : current_token _ = Some _ |- _ => apply current_token_lt in H
  | H : pop_scope _ = Ok _ |- _ => apply pop_scope_Ok in H as [-> ?]
  | H : innermost _ = Ok _ |- _ => apply innermost_Ok in H as [? ?]
  | H : bind_innermost _ _ _ = Ok _ |- _ =>
      apply bind_innermost_Ok in H as (? & ? & ? & ->)
  end;
  eval_delta;
  simpl in *.

(** One goal per field: equalities of token lists, cursor arithmetic, sets
    of function names, scope stacks. *)
Ltac norm_tokens :=
  repeat match goal with
  | H : tokens ?a = tokens ?b |- _ =>
      first [ constr_eq a b; clear H
            | let l := fresh "l" in
              set (l := tokens a) in *; clearbody l; subst l ]
  end.

Ltac solve_functions :=
  repeat match goal with
  | H : defined_functions ?a = _ |- _ =>
      let d := fresh "d" in
      set (d := defined_functions a) in *; clearbody d; subst d
  end;
  repeat match goal with
  | H : ?T |- _ =>
      lazymatch T with
      | context [defined_functions _] => fail
      | _ => clear H
      end
  end;
  set_solver.

Ltac solve_scopes :=
  repeat match goal with
  | H : variable_scopes ?a = _ |- _ =>
      let v := fresh "v" in
      set (v := variable_scopes a) in *; clearbody v; subst v
  end;
  simpl in *; congruence.

Ltac solve_fields :=
  fields; repeat split; simpl;
  first [ congruence | norm_tokens; lia | solve_scopes | solve_functions ].

Lemma parse_expression_loop_Ok fuel expr_value self expr_value' self' :
  parse_expression_loop fuel expr_value self = Ok (expr_value', self') →
  only_cursor self self'.
Proof.
  revert expr_value self.
  induction fuel as [|fuel IH]; simpl; intros v self H; inv_ok;
    auto with parser.
  apply IH in H. solve_fields.
Qed.

Lemma parse_expression_Ok fuel self node self' :
  parse_expression fuel self = Ok (node, self') → only_cursor self self'.
Proof.
  unfold parse_expression. intros H. inv_ok.
  eauto using parse_expression_loop_Ok.
Qed.

Lemma parse_for_clause_Ok terminator fuel value self value' self' :
  parse_for_clause terminator fuel value self = Ok (value', self') →
  only_cursor self self'.
Proof.
  revert value self.
  induction fuel as [|fuel IH]; simpl; intros v self H; inv_ok;
    auto with parser.
  apply IH in H. solve_fields.
Qed.

Lemma parse_parameters_Ok fuel params_node self params_node' self' :
  parse_parameters fuel params_node self = Ok (params_node', self') →
  frame self self'.
Proof.
  revert params_node self.
  induction fuel as [|fuel IH]; simpl; intros p self H; inv_ok;
    auto with parser.
  apply IH in H. solve_fields.
Qed.

Lemma parse_variable_definition_Ok fuel self node self' :
  parse_variable_definition fuel self = Ok (node, self') →
  frame self self' ∧ current self < current self'.
Proof.
  unfold parse_variable_definition. intros H. inv_ok;
    repeat match goal with
    | H : parse_expression _ _ = Ok _ |- _ => apply parse_expression_Ok in H
    end; solve_fields.
Qed.

Lemma parse_generic_statement_Ok self node self' :
  parse_generic_statement self = Ok (node, self') →
  only_cursor self self' ∧ current self < current self'.
Proof.
  unfold parse_generic_statement. intros H. inv_ok.
  - solve_fields.
  - solve_fields.
Qed.

Ltac use_nonrecursive :=
  repeat match goal with
  | H : parse_expression _ _ = Ok _ |- _ => apply parse_expression_Ok in H
  | H : parse_for_clause _ _ _ _ = Ok _ |- _ => apply parse_for_clause_Ok in H
  | H : parse_parameters _ _ _ = Ok _ |- _ => apply parse_parameters_Ok in H
  | H : parse_variable_definition _ _ = Ok _ |- _ =>
      apply parse_variable_definition_Ok in H
  | H : parse_generic_statement _ = Ok _ |- _ =>
      apply parse_generic_statement_Ok in H
  end.

Lemma productions_frame fuel :
  (∀ self node self',
     parse_statement_or_block fuel self = Ok (node, self') →
     frame self self' ∧ current self < current self') ∧
  (∀ self node self',
     parse_block fuel self = Ok (node, self') → balanced self self') ∧
  (∀ block_node self node self',
     parse_block_loop fuel block_node self = Ok (node, self') →
     frame self self') ∧
  (∀ self node self',
     parse_function_definition fuel self = Ok (node, self') →
     balanced self self') ∧
  (∀ self node self',
     parse_if_conditional fuel self = Ok (node, self') → balanced self self') ∧
  (∀ self node self',
     parse_for_loop fuel self = Ok (node, self') →
     frame self self' ∧ current self < current self').
Proof.
  induction fuel as [|fuel (IHs & IHb & IHl & IHf & IHi & IHo)].
  { repeat split; intros; discriminate. }
  unfold balanced in *.
  repeat apply conj; intros; simpl in *; inv_ok; use_nonrecursive;
    repeat match goal with
    | H : parse_statement_or_block _ _ = Ok _ |- _ => apply IHs in H
    | H : parse_block _ _ = Ok _ |- _ => apply IHb in H
    | H : parse_block_loop _ _ _ = Ok _ |- _ => apply IHl in H
    | H : parse_function_definition _ _ = Ok _ |- _ => apply IHf in H
    | H : parse_if_conditional _ _ = Ok _ |- _ => apply IHi in H
    | H : parse_for_loop _ _ = Ok _ |- _ => apply IHo in H
    end;
    auto with parser; solve_fields.
Qed.

Lemma parse_statement_or_block_Ok fuel self node self' :
  parse_statement_or_block fuel self = Ok (node, self') →
  frame self self' ∧ current self < current self'.
Proof. apply productions_frame. Qed.

Lemma parse_block_Ok fuel self node self' :
  parse_block fuel self = Ok (node, self') → balanced self self'.
Proof. apply productions_frame. Qed.

Lemma parse_block_loop_Ok fuel block_node self node self' :
  parse_block_loop fuel block_node self = Ok (node, self') → frame self self'.
Proof. apply productions_frame. Qed.

Lemma parse_function_definition_Ok fuel self node self' :
  parse_function_definition fuel self = Ok (node, self') → balanced self self'.
Proof. apply productions_frame. Qed.

Lemma parse_if_conditional_Ok fuel self node self' :
  parse_if_conditional fuel self = Ok (node, self') → balanced self self'.
Proof. apply productions_frame. Qed.

Lemma parse_for_loop_Ok fuel self node self' :
  parse_for_loop fuel self = Ok (node, self') →
  frame self self' ∧ current self < current self'.
Proof. apply productions_frame. Qed.

Lemma parse_loop_Ok fuel program_node self node self' :
  parse_loop fuel program_node self = Ok (node, self') → frame self self'.
Proof.
  revert program_node self.
  induction fuel as [|fuel IH]; simpl; intros p self H; inv_ok;
    auto with parser.
  apply IH in H.
  match goal with
  | H : parse_statement_or_block _ _ = Ok _ |- _ =>
      apply parse_statement_or_block_Ok in H
  end.
  solve_fields.
Qed.

(** Turns every successful call in the context into what it preserves. *)
Ltac use_frames :=
  use_nonrecursive;
  repeat match goal with
  | H : parse_statement_or_block _ _ = Ok _ |- _ =>
      apply parse_statement_or_block_Ok in H
  | H : parse_block _ _ = Ok _ |- _ => apply parse_block_Ok in H as (? & ? & ?)
  | H : parse_block_loop _ _ _ = Ok _ |- _ => apply parse_block_loop_Ok in H
  | H : parse_function_definition _ _ = Ok _ |- _ =>
      apply parse_function_definition_Ok in H as (? & ? & ?)
  | H : parse_if_conditional _ _ = Ok _ |- _ =>
      apply parse_if_conditional_Ok in H as (? & ? & ?)
  | H : parse_for_loop _ _ = Ok _ |- _ => apply parse_for_loop_Ok in H
  | H : parse_loop _ _ _ = Ok _ |- _ => apply parse_loop_Ok in H
  end.

Lemma parse_Ok fuel self node self' :
  parse fuel self = Ok (node, self') →
  tokens self' = tokens self ∧ current self < current self' ∧
  current self' ≤ length (tokens self) ∧
  block_counter self' = 0%Z ∧ block_counter self = 0%Z ∧
  defined_functions self ⊆ defined_functions self' ∧
  tail (variable_scopes self') = tail (variable_scopes self) ∧
  length (variable_scopes self') = length (variable_scopes self).
Proof.
  unfold parse. intros H. inv_ok. use_frames.
solve_fields.
Qed.

(** ** Termination: a budget that suffices *)

Lemma eat_fuel type_ self : eat type_ self ≠ OutOfFuel.
Proof. unfold eat. repeat case_match; discriminate. Qed.

Lemma pop_scope_fuel self : pop_scope self ≠ OutOfFuel.
Proof. unfold pop_scope. case_match; discriminate. Qed.

Lemma innermost_fuel self : innermost self ≠ OutOfFuel.
Proof. unfold innermost. case_match; discriminate. Qed.

Lemma bind_innermost_fuel name type_ self :
  bind_innermost name type_ self ≠ OutOfFuel.
Proof. unfold bind_innermost. case_match; discriminate. Qed.

(** Follows a run step by step to show that it does not stop for lack of
    fuel; what is left are the calls that take fuel. *)
Ltac fuel_walk :=
  repeat (simpl; match goal with
  | |- Ok _ ≠ OutOfFuel => discriminate
  | |- Raise _ ≠ OutOfFuel => discriminate
  | |- (let '(_, _) := ?p in _) ≠ OutOfFuel => destruct p
  | |- ((let '(_, _) := ?p in _) ≫= _) ≠ OutOfFuel => destruct p
  | |- ((?m ≫= _) ≫= _) ≠ OutOfFuel => destruct m eqn:?
  | |- ((if ?c then _ else _) ≫= _) ≠ OutOfFuel => destruct c eqn:?
  | |- ((match ?x with _ => _ end) ≫= _) ≠ OutOfFuel => destruct x eqn:?
  | |- (?m ≫= _) ≠ OutOfFuel => destruct m eqn:?
  | |- (if ?c then _ else _) ≠ OutOfFuel => destruct c eqn:?
  | |- match ?x with _ => _ end ≠ OutOfFuel => destruct x eqn:?
  end);
  try match goal with
  | H : eat _ _ = OutOfFuel |- _ => by apply eat_fuel in H
  | H : pop_scope _ = OutOfFuel |- _ => by apply pop_scope_fuel in H
  | H : innermost _ = OutOfFuel |- _ => by apply innermost_fuel in H
  | H : bind_innermost _ _ _ = OutOfFuel |- _ => by apply bind_innermost_fuel in H
  end.

(** Closes a bound on the budget from what the steps so far did. *)
Ltac solve_budget :=
  unfold remaining in *; use_frames; fields; norm_tokens; lia.

Lemma parse_expression_loop_fuel fuel expr_value self :
  remaining self < fuel → parse_expression_loop fuel expr_value self ≠ OutOfFuel.
Proof.
  revert expr_value self. induction fuel as [|fuel IH]; intros v self Hf.
  { lia. }
  fuel_walk. apply IH. solve_budget.
Qed.

Lemma parse_expression_fuel fuel self :
  remaining self < fuel → parse_expression fuel self ≠ OutOfFuel.
Proof.
  intros Hf. unfold parse_expression.
  pose proof (parse_expression_loop_fuel fuel "" self Hf). fuel_walk.
  congruence.
Qed.

Lemma parse_for_clause_fuel terminator fuel value self :
  remaining self < fuel → parse_for_clause terminator fuel value self ≠ OutOfFuel.
Proof.
  revert value self. induction fuel as [|fuel IH]; intros v self Hf.
  { lia. }
  fuel_walk. apply IH. solve_budget.
Qed.

Lemma parse_parameters_fuel fuel params_node self :
  remaining self < fuel → parse_parameters fuel params_node self ≠ OutOfFuel.
Proof.
  revert params_node self. induction fuel as [|fuel IH]; intros p self Hf.
  { lia. }
  fuel_walk. apply IH. solve_budget.
Qed.

Lemma parse_variable_definition_fuel fuel self :
  remaining self < fuel → parse_variable_definition fuel self ≠ OutOfFuel.
Proof.
  intros Hf. unfold parse_variable_definition. fuel_walk.
  match goal with
  | H : parse_expression _ _ = OutOfFuel |- _ =>
      exfalso; revert H; apply parse_expression_fuel
  end.
  solve_budget.
Qed.

Lemma parse_generic_statement_fuel self :
  parse_generic_statement self ≠ OutOfFuel.
Proof. unfold parse_generic_statement. fuel_walk. Qed.

(** Refutes a call that ran out of fuel, given a lemma that says it cannot;
    what is left is the bound on the budget. *)
Ltac budget_by lem :=
  match goal with
  | H : _ = OutOfFuel |- _ => exfalso; revert H; apply lem
  | |- _ ≠ OutOfFuel => apply lem
  end.

Lemma productions_fuel fuel :
  (∀ self, 3 * remaining self + 3 ≤ fuel →
     parse_statement_or_block fuel self ≠ OutOfFuel) ∧
  (∀ self, 3 * remaining self + 2 ≤ fuel → parse_block fuel self ≠ OutOfFuel) ∧
  (∀ block_node self, 3 * remaining self + 4 ≤ fuel →
     parse_block_loop fuel block_node self ≠ OutOfFuel) ∧
  (∀ self, 3 * remaining self + 2 ≤ fuel →
     parse_function_definition fuel self ≠ OutOfFuel) ∧
  (∀ self, 3 * remaining self + 2 ≤ fuel →
     parse_if_conditional fuel self ≠ OutOfFuel) ∧
  (∀ self, 3 * remaining self + 2 ≤ fuel →
     parse_for_loop fuel self ≠ OutOfFuel).
Proof.
  induction fuel as [|fuel (IHs & IHb & IHl & IHf & IHi & IHo)].
  { repeat split; intros; lia. }
  repeat apply conj; intros; fuel_walk;
    try first
      [ budget_by IHs | budget_by IHb | budget_by IHl | budget_by IHf
      | budget_by IHi | budget_by IHo
      | budget_by parse_generic_statement_fuel
      | budget_by parse_variable_definition_fuel
      | budget_by parse_expression_fuel
      | budget_by parse_for_clause_fuel
      | budget_by parse_parameters_fuel ];
    solve_budget.
Qed.

Lemma parse_loop_fuel fuel program_node self :
  3 * remaining self + 4 ≤ fuel →
  parse_loop fuel program_node self ≠ OutOfFuel.
Proof.
  revert program_node self. induction fuel as [|fuel IH]; intros p self Hf.
  { lia. }
  pose proof (productions_fuel fuel) as (Hs & _).
  fuel_walk; first [ budget_by IH | budget_by Hs ]; solve_budget.
Qed.

Lemma parse_fuel fuel self :
  3 * remaining self + 4 ≤ fuel → parse fuel self ≠ OutOfFuel.
Proof.
  intros Hf. unfold parse. fuel_walk.
  budget_by parse_loop_fuel. solve_budget.
Qed.

(** ** A larger budget gives the same result *)

(** Follows two runs of the same production that differ in their budget;
    [use E] rewrites the run with the larger budget by the step [E] of the
    other. *)
Ltac mono_walk use :=
  repeat (simpl in *; match goal with
  | |- ?x = ?x => reflexivity
  | H : OutOfFuel ≠ OutOfFuel |- _ => by destruct H
  | H : (let '(_, _) := ?p in _) ≠ OutOfFuel |- _ => destruct p
  | H : ((let '(_, _) := ?p in _) ≫= _) ≠ OutOfFuel |- _ => destruct p
  | H : ((?m ≫= _) ≫= _) ≠ OutOfFuel |- _ =>
      let E := fresh "E" in destruct m eqn:E; try use E
  | H : ((if ?c then _ else _) ≫= _) ≠ OutOfFuel |- _ => destruct c eqn:?
  | H : ((match ?x with _ => _ end) ≫= _) ≠ OutOfFuel |- _ => destruct x eqn:?
  | H : (?m ≫= _) ≠ OutOfFuel |- _ =>
      let E := fresh "E" in destruct m eqn:E; try use E
  | H : (if ?c then _ else _) ≠ OutOfFuel |- _ => destruct c eqn:?
  | H : match ?x with _ => _ end ≠ OutOfFuel |- _ => destruct x eqn:?
  end).

Lemma parse_expression_loop_mono fuel fuel' expr_value self r :
  parse_expression_loop fuel expr_value self = r → r ≠ OutOfFuel →
  fuel ≤ fuel' → parse_expression_loop fuel' expr_value self = r.
Proof.
  revert fuel' expr_value self.
  induction fuel as [|fuel IH]; intros [|fuel'] v self <- Hr Hle;
    try done; try lia.
  mono_walk ltac:(fun E => idtac). apply IH; auto with lia.
Qed.

Lemma parse_expression_mono fuel fuel' self r :
  parse_expression fuel self = r → r ≠ OutOfFuel →
  fuel ≤ fuel' → parse_expression fuel' self = r.
Proof.
  unfold parse_expression. intros <- Hr Hle.
  mono_walk ltac:(fun E =>
    rewrite (parse_expression_loop_mono _ fuel' _ _ _ E) by (done || lia)).
Qed.

Lemma parse_for_clause_mono terminator fuel fuel' value self r :
  parse_for_clause terminator fuel value self = r → r ≠ OutOfFuel →
  fuel ≤ fuel' → parse_for_clause terminator fuel' value self = r.
Proof.
  revert fuel' value self.
  induction fuel as [|fuel IH]; intros [|fuel'] v self <- Hr Hle;
    try done; try lia.
  mono_walk ltac:(fun E => idtac). apply IH; auto with lia.
Qed.

Lemma parse_parameters_mono fuel fuel' params_node self r :
  parse_parameters fuel params_node self = r → r ≠ OutOfFuel →
  fuel ≤ fuel' → parse_parameters fuel' params_node self = r.
Proof.
  revert fuel' params_node self.
  induction fuel as [|fuel IH]; intros [|fuel'] p self <- Hr Hle;
    try done; try lia.
  mono_walk ltac:(fun E => idtac). apply IH; auto with lia.
Qed.

Lemma parse_variable_definition_mono fuel fuel' self r :
  parse_variable_definition fuel self = r → r ≠ OutOfFuel →
  fuel ≤ fuel' → parse_variable_definition fuel' self = r.
Proof.
  unfold parse_variable_definition. intros <- Hr Hle.
  mono_walk ltac:(fun E =>
    rewrite (parse_expression_mono _ fuel' _ _ E) by (done || lia)).
Qed.

Lemma productions_mono fuel fuel' :
  fuel ≤ fuel' →
  (∀ self r, parse_statement_or_block fuel self = r → r ≠ OutOfFuel →
     parse_statement_or_block fuel' self = r) ∧
  (∀ self r, parse_block fuel self = r → r ≠ OutOfFuel →
     parse_block fuel' self = r) ∧
  (∀ block_node self r, parse_block_loop fuel block_node self = r →
     r ≠ OutOfFuel → parse_block_loop fuel' block_node self = r) ∧
  (∀ self r, parse_function_definition fuel self = r → r ≠ OutOfFuel →
     parse_function_definition fuel' self = r) ∧
  (∀ self r, parse_if_conditional fuel self = r → r ≠ OutOfFuel →
     parse_if_conditional fuel' self = r) ∧
  (∀ self r, parse_for_loop fuel self = r → r ≠ OutOfFuel →
     parse_for_loop fuel' self = r).
Proof.
  revert fuel'. induction fuel as [|fuel IH]; intros [|fuel'] Hle; try lia.
  { repeat split; intros; by subst. }
  { repeat split; intros; by subst. }
  destruct (IH fuel') as (IHs & IHb & IHl & IHf & IHi & IHo); [lia|].
  repeat apply conj; intros; subst;
    mono_walk ltac:(fun E =>
      first
        [ rewrite (IHs _ _ E) by done
        | rewrite (IHb _ _ E) by done
        | rewrite (IHl _ _ _ E) by done
        | rewrite (IHf _ _ E) by done
        | rewrite (IHi _ _ E) by done
        | rewrite (IHo _ _ E) by done
        | rewrite (parse_expression_mono _ fuel' _ _ E) by (done || lia)
        | rewrite (parse_variable_definition_mono _ fuel' _ _ E)
            by (done || lia)
        | rewrite (parse_for_clause_mono _ _ fuel' _ _ _ E) by (done || lia)
        | rewrite (parse_parameters_mono _ fuel' _ _ _ E) by (done || lia) ]);
    eauto using parse_variable_definition_mono with lia.
Qed.

Lemma parse_loop_mono fuel fuel' program_node self r :
  parse_loop fuel program_node self = r → r ≠ OutOfFuel →
  fuel ≤ fuel' → parse_loop fuel' program_node self = r.
Proof.
  revert fuel' program_node self.
  induction fuel as [|fuel IH]; intros [|fuel'] p self <- Hr Hle;
    try done; try lia.
  destruct (productions_mono fuel fuel') as (Hs & _); [lia|].
  mono_walk ltac:(fun E => rewrite (Hs _ _ E) by done).
  apply IH; auto with lia.
Qed.

Lemma parse_mono fuel fuel' self r :
  parse fuel self = r → r ≠ OutOfFuel → fuel ≤ fuel' → parse fuel' self = r.
Proof.
  unfold parse. intros <- Hr Hle.
  mono_walk ltac:(fun E =>
    rewrite (parse_loop_mono _ fuel' _ _ _ E) by (done || lia)).
Qed.

(** ** Tokens that are never reached *)

Lemma current_token_extend extra self token :
  current_token self = Some token →
  current_token (extend extra self) = Some token.
Proof. unfold current_token. simpl. apply lookup_app_l_Some. Qed.

Lemma current_token_None self :
  current_token self = None → length (tokens self) ≤ current self.
Proof. apply lookup_ge_None. Qed.

Lemma eat_extend extra type_ self token self' :
  eat type_ self = Ok (token, self') →
  eat type_ (extend extra self) = Ok (token, extend extra self').
Proof.
  unfold eat. intros H. inv_ok.
  erewrite current_token_extend by eassumption.
  match goal with H : decide _ = _ |- _ => rewrite H end. simpl.
  repeat case_decide; reflexivity.
Qed.

Lemma pop_scope_extend extra self self' :
  pop_scope self = Ok self' →
  pop_scope (extend extra self) = Ok (extend extra self').
Proof. unfold pop_scope. simpl. intros H. by inv_ok. Qed.

Lemma innermost_extend extra self : innermost (extend extra self) = innermost self.
Proof. reflexivity. Qed.

Lemma bind_innermost_extend extra name type_ self self' :
  bind_innermost name type_ self = Ok self' →
  bind_innermost name type_ (extend extra self) = Ok (extend extra self').
Proof. unfold bind_innermost. simpl. intros H. by inv_ok. Qed.

(** Replays on the longer input the steps of a successful run.  [bound]
    closes the side conditions: the cursor stayed on the shorter input. *)
Ltac replay_with calls extra bound :=
  repeat first
  [ calls
  | progress change (push_scope (extend extra ?s))
      with (extend extra (push_scope s))
  | progress change (advance (extend extra ?s)) with (extend extra (advance s))
  | progress change (defined_functions (extend extra ?s))
      with (defined_functions s)
  | progress change (block_counter (extend extra ?s)) with (block_counter s)
  | progress change (set_defined_functions ?d (extend extra ?s))
      with (extend extra (set_defined_functions d s))
  | progress change (is_variable_defined ?v (extend extra ?s))
      with (is_variable_defined v s)
  | progress change (innermost (extend extra ?s)) with (innermost s)
  | match goal with
    | H : current_token ?s = Some _ |- context [current_token (extend extra ?s)] =>
        rewrite (current_token_extend extra _ _ H)
    | H : current_token ?s = None |- context [current_token (extend extra ?s)] =>
        exfalso; apply current_token_None in H; bound
    | H : eat ?ty ?s = Ok _ |- context [eat ?ty (extend extra ?s)] =>
        rewrite (eat_extend extra _ _ _ _ H)
    | H : pop_scope ?s = Ok _ |- context [pop_scope (extend extra ?s)] =>
        rewrite (pop_scope_extend extra _ _ H)
    | H : bind_innermost ?n ?ty ?s = Ok _
      |- context [bind_innermost ?n ?ty (extend extra ?s)] =>
        rewrite (bind_innermost_extend extra _ _ _ _ H)
    | H : ?x = _ |- context [?x] => rewrite H
    end
  | progress simpl ].

Ltac replay extra bound := replay_with fail extra bound.

Ltac cursor_bound :=
  use_frames; fields; norm_tokens; lia.

Lemma parse_expression_loop_extend extra fuel expr_value self expr_value' self' :
  parse_expression_loop fuel expr_value self = Ok (expr_value', self') →
  current self' < length (tokens self) →
  parse_expression_loop fuel expr_value (extend extra self)
  = Ok (expr_value', extend extra self').
Proof.
  revert expr_value self.
  induction fuel as [|fuel IH]; simpl; intros v self H Hlt; inv_ok;
    replay extra cursor_bound; try done.
  apply IH; [done|]. cursor_bound.
Qed.

Lemma parse_expression_extend extra fuel self node self' :
  parse_expression fuel self = Ok (node, self') →
  current self' < length (tokens self) →
  parse_expression fuel (extend extra self) = Ok (node, extend extra self').
Proof.
  unfold parse_expression. intros H Hlt. inv_ok.
  erewrite parse_expression_loop_extend by eauto. done.
Qed.

Lemma parse_for_clause_extend extra terminator fuel value self value' self' :
  parse_for_clause terminator fuel value self = Ok (value', self') →
  current self' < length (tokens self) →
  parse_for_clause terminator fuel value (extend extra self)
  = Ok (value', extend extra self').
Proof.
  revert value self.
  induction fuel as [|fuel IH]; simpl; intros v self H Hlt; inv_ok;
    replay extra cursor_bound; try done.
  apply IH; [done|]. cursor_bound.
Qed.

Lemma parse_parameters_extend extra fuel params_node self params_node' self' :
  parse_parameters fuel params_node self = Ok (params_node', self') →
  current self' < length (tokens self) →
  parse_parameters fuel params_node (extend extra self)
  = Ok (params_node', extend extra self').
Proof.
  revert params_node self.
  induction fuel as [|fuel IH]; simpl; intros p self H Hlt; inv_ok;
    replay extra cursor_bound; try done.
  apply IH; [done|]. cursor_bound.
Qed.

Lemma parse_variable_definition_extend extra fuel self node self' :
  parse_variable_definition fuel self = Ok (node, self') →
  current self' < length (tokens self) →
  parse_variable_definition fuel (extend extra self)
  = Ok (node, extend extra self').
Proof.
  unfold parse_variable_definition. intros H Hlt. inv_ok;
    replay extra cursor_bound; try done.
  erewrite parse_expression_extend; [|eassumption|cursor_bound].
  replay extra cursor_bound. done.
Qed.

Lemma parse_generic_statement_extend extra self node self' :
  parse_generic_statement self = Ok (node, self') →
  parse_generic_statement (extend extra self) = Ok (node, extend extra self').
Proof.
  unfold parse_generic_statement. intros H. inv_ok;
    replay extra cursor_bound; done.
Qed.

Lemma productions_extend extra fuel :
  (∀ self node self',
     parse_statement_or_block fuel self = Ok (node, self') →
     current self' < length (tokens self) →
     parse_statement_or_block fuel (extend extra self)
     = Ok (node, extend extra self')) ∧
  (∀ self node self',
     parse_block fuel self = Ok (node, self') →
     current self' < length (tokens self) →
     parse_block fuel (extend extra self) = Ok (node, extend extra self')) ∧
  (∀ block_node self node self',
     parse_block_loop fuel block_node self = Ok (node, self') →
     current self' < length (tokens self) →
     parse_block_loop fuel block_node (extend extra self)
     = Ok (node, extend extra self')) ∧
  (∀ self node self',
     parse_function_definition fuel self = Ok (node, self') →
     current self' < length (tokens self) →
     parse_function_definition fuel (extend extra self)
     = Ok (node, extend extra self')) ∧
  (∀ self node self',
     parse_if_conditional fuel self = Ok (node, self') →
     current self' < length (tokens self) →
     parse_if_conditional fuel (extend extra self)
     = Ok (node, extend extra self')) ∧
  (∀ self node self',
     parse_for_loop fuel self = Ok (node, self') →
     current self' < length (tokens self) →
     parse_for_loop fuel (extend extra self) = Ok (node, extend extra self')).
Proof.
  induction fuel as [|fuel (IHs & IHb & IHl & IHf & IHi & IHo)].
  { repeat split; intros; discriminate. }
  repeat apply conj; intros; simpl in *; inv_ok;
    replay_with
      ltac:(idtac; match goal with
            | H : parse_statement_or_block ?f ?s = Ok _
              |- context [parse_statement_or_block ?f (extend extra ?s)] =>
                rewrite (IHs _ _ _ H) by cursor_bound
            | H : parse_block ?f ?s = Ok _
              |- context [parse_block ?f (extend extra ?s)] =>
                rewrite (IHb _ _ _ H) by cursor_bound
            | H : parse_block_loop ?f ?n ?s = Ok _
              |- context [parse_block_loop ?f ?n (extend extra ?s)] =>
                rewrite (IHl _ _ _ _ H) by cursor_bound
            | H : parse_function_definition ?f ?s = Ok _
              |- context [parse_function_definition ?f (extend extra ?s)] =>
                rewrite (IHf _ _ _ H) by cursor_bound
            | H : parse_if_conditional ?f ?s = Ok _
              |- context [parse_if_conditional ?f (extend extra ?s)] =>
                rewrite (IHi _ _ _ H) by cursor_bound
            | H : parse_for_loop ?f ?s = Ok _
              |- context [parse_for_loop ?f (extend extra ?s)] =>
                rewrite (IHo _ _ _ H) by cursor_bound
            | H : parse_expression ?f ?s = Ok _
              |- context [parse_expression ?f (extend extra ?s)] =>
                rewrite (parse_expression_extend extra _ _ _ _ H)
                  by cursor_bound
            | H : parse_variable_definition ?f ?s = Ok _
              |- context [parse_variable_definition ?f (extend extra ?s)] =>
                rewrite (parse_variable_definition_extend extra _ _ _ _ H)
                  by cursor_bound
            | H : parse_for_clause ?t ?f ?v ?s = Ok _
              |- context [parse_for_clause ?t ?f ?v (extend extra ?s)] =>
                rewrite (parse_for_clause_extend extra _ _ _ _ _ _ H)
                  by cursor_bound
            | H : parse_parameters ?f ?n ?s = Ok _
              |- context [parse_parameters ?f ?n (extend extra ?s)] =>
                rewrite (parse_parameters_extend extra _ _ _ _ _ H)
                  by cursor_bound
            | H : parse_generic_statement ?s = Ok _
              |- context [parse_generic_statement (extend extra ?s)] =>
                rewrite (parse_generic_statement_extend extra _ _ _ H)
            end)
      extra cursor_bound;
    try done.
Qed.

Lemma parse_loop_extend extra fuel program_node self node self' :
  parse_loop fuel program_node self = Ok (node, self') →
  current self' < length (tokens self) →
  parse_loop fuel program_node (extend extra self)
  = Ok (node, extend extra self').
Proof.
  revert program_node self.
  induction fuel as [|fuel IH]; simpl; intros p self H Hlt; inv_ok;
    replay extra cursor_bound; try done.
  destruct (productions_extend extra fuel) as (Hs & _).
  erewrite Hs; [|eassumption|cursor_bound]. simpl.
  apply IH; [done|]. cursor_bound.
Qed.

Lemma parse_extend extra fuel self node self' :
  parse fuel self = Ok (node, self') →
  parse fuel (extend extra self) = Ok (node, extend extra self').
Proof.
  unfold parse. intros H. inv_ok. replay extra cursor_bound.
  erewrite parse_loop_extend; [|eassumption|cursor_bound].
  replay extra cursor_bound. done.
Qed.

(** ** Running the primitives forward *)

Lemma eat_at type_ self token :
  current_token self = Some token → Token.type token = type_ →
  eat type_ self
  = Ok (token, set_block_counter (block_counter self + delta type_) (advance self)).
Proof.
  unfold eat, delta. intros -> <-. rewrite decide_True by done.
  repeat case_decide; try done.
  destruct self; unfold set_block_counter, advance, set_current; simpl.
  do 3 f_equal. lia.
Qed.

(** ** The scenario of the specification *)

(** C3.  The scenario parses to a [Program] node with two children, in this
    order: [VariableDefinition("int x = 1")] and [Return("x")]. *)
Theorem scenario_parses v1 v2 v5 v7 v8 v10 v11 :
  ∃ self',
    run (scenario v1 v2 v5 v7 v8 v10 v11)
    = Ok (Node.mk "Program" ""
            [ Node.mk "VariableDefinition" "int x = 1" [];
              Node.mk "Return" "x" [] ],
          self').
Proof. eexists. vm_compute. reflexivity. Qed.

(** ** The scope stack *)

(** C8.  The scope stack starts as one empty frame; a block and a function
    definition that succeed leave the stack as they found it, their pushes
    matched by their pops; so after a successful parse the stack has exactly
    one frame again. *)
Theorem scope_stack_balanced tokens tree self' :
  run tokens = Ok (tree, self') →
  variable_scopes (new tokens) = [∅] ∧
  (∀ fuel self node self1,
     parse_block fuel self = Ok (node, self1) →
     variable_scopes self1 = variable_scopes self) ∧
  (∀ fuel self node self1,
     parse_function_definition fuel self = Ok (node, self1) →
     variable_scopes self1 = variable_scopes self) ∧
  length (variable_scopes self') = 1.
Proof.
  intros Hrun. split; [done|]. split; [|split].
  - intros fuel self node self1 H. by apply parse_block_Ok in H as (_ & _ & ?).
  - intros fuel self node self1 H.
    by apply parse_function_definition_Ok in H as (_ & _ & ?).
  - apply parse_Ok in Hrun as (_ & _ & _ & _ & _ & _ & _ & Hlen). done.
Qed.

Lemma scope_stack_balanced_witness :
  ∃ tree self' func self1 body self2,
    run function_with_blocks = Ok (tree, self') ∧
    length (variable_scopes self') = 1 ∧
    parse_function_definition 20 at_function = Ok (func, self1) ∧
    variable_scopes self1 = variable_scopes at_function ∧
    parse_block 20 at_function_body = Ok (body, self2) ∧
    variable_scopes self2 = variable_scopes at_function_body.
Proof.
  eexists _, _, _, _, _, _.
  assert (∀ A B : Prop, A → (A → B) → A ∧ B) as both by tauto.
  apply both; [vm_compute; reflexivity|]. intros Hrun.
  destruct (scope_stack_balanced function_with_blocks _ _ Hrun)
    as (_ & Hblock & Hfunction & Hlength).
  split; [exact Hlength|].
  apply both; [vm_compute; reflexivity|]. intros Hfunc.
  split; [exact (Hfunction _ _ _ _ Hfunc)|].
  apply both; [vm_compute; reflexivity|]. intros Hbody.
  exact (Hblock _ _ _ _ Hbody).
Defined.

(** ** Termination *)

(** C9.  [Parser.parse] terminates on every token sequence: the budget of
    [run] is never exhausted, and any larger budget gives the same result.
    The reason is that every production that returns has moved the cursor
    forward, on the input, so that the number of remaining tokens bounds
    loops and recursion: with three units per remaining token no production
    runs out. *)
Theorem parse_terminates tokens fuel :
  3 * length tokens + 4 ≤ fuel →
  run tokens ≠ OutOfFuel ∧
  parse fuel (new tokens) = run tokens ∧
  (∀ budget self node self',
     parse_statement_or_block budget self = Ok (node, self') →
     remaining self' < remaining self) ∧
  (∀ budget self, 3 * remaining self + 3 ≤ budget →
     parse_statement_or_block budget self ≠ OutOfFuel).
Proof.
  intros Hfuel.
  assert (run tokens ≠ OutOfFuel) as Hrun.
  { apply parse_fuel. unfold remaining. simpl. lia. }
  repeat split; [done|..].
  - eapply parse_mono; [reflexivity|done|done].
  - intros ???? H. apply parse_statement_or_block_Ok in H.
    unfold remaining. fields. norm_tokens. lia.
  - apply productions_fuel.
Qed.

Lemma parse_terminates_witness :
  3 * length (scenario "" "" "" "" "" "" "") + 4 ≤ 100 ∧
  run (scenario "" "" "" "" "" "" "") ≠ OutOfFuel ∧
  parse 100 (new (scenario "" "" "" "" "" "" ""))
  = run (scenario "" "" "" "" "" "" "").
Proof.
  assert (3 * length (scenario "" "" "" "" "" "" "") + 4 ≤ 100) as Hfuel
    by (simpl; lia).
  split; [exact Hfuel|].
  destruct (parse_terminates (scenario "" "" "" "" "" "" "") 100 Hfuel)
    as (H1 & H2 & _).
  split; assumption.
Defined.

(** ** Tokens after the end of the program *)

(** C10.  Tokens after the [PROGRAM_END] at which a successful parse stops
    are ignored: with any tokens appended, the parse succeeds with the same
    tree, and stops at the same place. *)
Theorem trailing_tokens_ignored tokens extra tree self' :
  run tokens = Ok (tree, self') →
  run (tokens ++ extra) = Ok (tree, extend extra self').
Proof.
  unfold run. intros H.
  apply (parse_extend extra) in H.
  eapply parse_mono; [exact H|done|]. rewrite length_app. lia.
Qed.

Lemma trailing_tokens_ignored_witness :
  ∃ tree self',
    run (scenario "" "" "" "" "" "" "") = Ok (tree, self') ∧
    run (scenario "" "" "" "" "" "" "" ++ [tok "BLOCK_END" "}"; tok "junk" "?"])
    = Ok (tree, extend [tok "BLOCK_END" "}"; tok "junk" "?"] self').
Proof.
  eexists _, _.
  assert (∀ A B : Prop, A → (A → B) → A ∧ B) as both by tauto.
  apply both; [vm_compute; reflexivity|].
  apply (trailing_tokens_ignored (scenario "" "" "" "" "" "" "")).
Defined.

(** ** Runs that raise *)

Lemma eat_Raise type_ self e :
  eat type_ self = Raise e →
  e = Runtime (UnexpectedToken (current_token self) type_).
Proof.
  unfold eat. destruct (current_token self); [case_decide|]; congruence.
Qed.

Lemma pop_scope_Raise self e :
  pop_scope self = Raise e → e = IndexError ∧ variable_scopes self = [].
Proof. unfold pop_scope. case_match; split; congruence. Qed.

Lemma innermost_Raise self e :
  innermost self = Raise e → e = IndexError ∧ variable_scopes self = [].
Proof. unfold innermost. case_match; split; congruence. Qed.

Lemma bind_innermost_Raise name type_ self e :
  bind_innermost name type_ self = Raise e →
  e = IndexError ∧ variable_scopes self = [].
Proof. unfold bind_innermost. case_match; split; congruence. Qed.

(** Takes a run apart, whether it returned or raised. *)
Ltac inv_run :=
  repeat match goal with
  | H : Ok _ = Ok _ |- _ => injection H as ?; subst
  | H : Raise _ = Raise _ |- _ => injection H as ?; subst
  | H : (_, _) = (_, _) |- _ => injection H as ?; subst
  | H : Raise _ = Ok _ |- _ => discriminate H
  | H : Ok _ = Raise _ |- _ => discriminate H
  | H : OutOfFuel = _ |- _ => discriminate H
  | H : _ ≫= _ = Ok _ |- _ => apply bind_Ok in H as (? & ? & H)
  | H : _ ≫= _ = Raise _ |- _ => apply bind_Raise in H as [H | (? & ? & H)]
  | H : (let '(_, _) := ?p in _) = _ |- _ => destruct p
  | H : (if ?c then _ else _) = Ok _ |- _ => destruct c eqn:?
  | H : (if ?c then _ else _) = Raise _ |- _ => destruct c eqn:?
  | H : match ?x with _ => _ end = Ok _ |- _ => destruct x eqn:?
  | H : match ?x with _ => _ end = Raise _ |- _ => destruct x eqn:?
  | H : eat _ _ = Raise _ |- _ => apply eat_Raise in H; simplify_eq
  | H : pop_scope _ = Raise _ |- _ =>
      apply pop_scope_Raise in H as [? ?]; simplify_eq
  | H : innermost _ = Raise _ |- _ =>
      apply innermost_Raise in H as [? ?]; simplify_eq
  | H : bind_innermost _ _ _ = Raise _ |- _ =>
      apply bind_innermost_Raise in H as [? ?]; simplify_eq
  end.

Lemma parse_expression_loop_Raise fuel expr_value self e :
  parse_expression_loop fuel expr_value self ≠ Raise e.
Proof.
  revert expr_value self. induction fuel as [|fuel IH]; simpl; intros v self.
  - done.
  - repeat case_match; done.
Qed.

Lemma parse_expression_Raise fuel self e : parse_expression fuel self ≠ Raise e.
Proof.
  unfold parse_expression. intros H. inv_run.
  by eapply parse_expression_loop_Raise.
Qed.

(** ** Variable definitions *)

(** Runs [eat] on a token known to be there. *)
Ltac eat_token t :=
  rewrite (eat_at _ _ t) by (try done; unfold current_token; simpl; done);
  simpl.

(** C5.  [parse_variable_definition] fails with a semantic error if and only
    if it has read the three tokens of a declaration and the declared name
    is in the innermost frame; the error is then that of a redefinition.  A
    name that the innermost frame does not have is accepted and bound there,
    whatever the outer frames hold. *)
Theorem variable_rejected_iff_in_innermost fuel self :
  (∀ e,
     parse_variable_definition fuel self = Raise (Runtime e) ∧
     kind e = SemanticError
     ↔ ∃ t1 t2 t3 scope scopes,
         tokens self !! current self = Some t1 ∧
         Token.type t1 = "VARIABLE_DEFINITION" ∧
         tokens self !! S (current self) = Some t2 ∧ Token.type t2 = "TYPE" ∧
         tokens self !! S (S (current self)) = Some t3 ∧
         Token.type t3 = "IDENTIFIER" ∧
         variable_scopes self = scope :: scopes ∧
         is_Some (scope !! Token.value t3) ∧
         e = VariableAlreadyDefined (Token.value t3)) ∧
  (∀ t1 t2 t3 t4 scope scopes,
     tokens self !! current self = Some t1 →
     Token.type t1 = "VARIABLE_DEFINITION" →
     tokens self !! S (current self) = Some t2 → Token.type t2 = "TYPE" →
     tokens self !! S (S (current self)) = Some t3 →
     Token.type t3 = "IDENTIFIER" →
     tokens self !! S (S (S (current self))) = Some t4 →
     Token.type t4 = "COMMAND_END" →
     variable_scopes self = scope :: scopes →
     scope !! Token.value t3 = None →
     parse_variable_definition fuel self
     = Ok (Node.new "VariableDefinition"
             (Token.value t2 +:+ " " +:+ Token.value t3),
           set_variable_scopes
             (<[Token.value t3 := Token.value t2]> scope :: scopes)
             (set_current (4 + current self) self))).
Proof.
  split.
  - intros e. split.
    + unfold parse_variable_definition. intros [H Hk].
      inv_run; try discriminate Hk;
        try (by exfalso; eapply parse_expression_Raise).
      repeat match goal with
      | H : eat _ _ = Ok _ |- _ => apply eat_Ok in H as (? & ? & ->)
      | H : innermost _ = Ok _ |- _ => apply innermost_Ok in H as [? ?]
      end.
      unfold current_token in *. simpl in *. eauto 15.
    + intros (t1 & t2 & t3 & scope & scopes & H1 & Ht1 & H2 & Ht2 & H3 & Ht3
              & Hs & Hin & ->).
      split; [|done]. unfold parse_variable_definition.
      eat_token t1. eat_token t2. eat_token t3.
      unfold innermost. simpl. rewrite Hs. simpl.
      by rewrite decide_True.
  - intros t1 t2 t3 t4 scope scopes H1 Ht1 H2 Ht2 H3 Ht3 H4 Ht4 Hs Hnone.
    unfold parse_variable_definition.
    eat_token t1. eat_token t2. eat_token t3.
    unfold innermost, bind_innermost. simpl. rewrite Hs. simpl.
    rewrite decide_False by (rewrite Hnone; by intros []). simpl.
    unfold current_token. simpl. rewrite H4.
    rewrite decide_False by (rewrite Ht4; done). simpl.
    eat_token t4.
    eval_delta. do 2 f_equal.
    destruct self; unfold set_variable_scopes, set_current,
      set_block_counter, advance; simpl. f_equal. lia.
Qed.

Lemma variable_rejected_iff_in_innermost_witness :
  parse_variable_definition 1 redefinition
  = Raise (Runtime (VariableAlreadyDefined "x")) ∧
  ∃ self', parse_variable_definition 1 shadow
           = Ok (Node.mk "VariableDefinition" "int x" [], self') ∧
           variable_scopes self' = [{["x" := "int"]}; {["x" := "int"]}].
Proof.
  split.
  - apply (proj1 (variable_rejected_iff_in_innermost 1 redefinition)
             (VariableAlreadyDefined "x")).
    exists (tok "VARIABLE_DEFINITION" "var"), (tok "TYPE" "int"),
      (tok "IDENTIFIER" "x"), {["x" := "int"]}, [∅].
    repeat split; try reflexivity. vm_compute. eauto.
  - eexists. split.
    + apply (proj2 (variable_rejected_iff_in_innermost 1 shadow)
               (tok "VARIABLE_DEFINITION" "var") (tok "TYPE" "int")
               (tok "IDENTIFIER" "x") (tok "COMMAND_END" ";")
               ∅ [{["x" := "int"]}]); reflexivity.
    + reflexivity.
Defined.

Example redefinition_in_same_scope_rejected :
  run declared_twice = Raise (Runtime (VariableAlreadyDefined "x")).
Proof. vm_compute. reflexivity. Qed.

Example redefinition_in_nested_block_accepted :
  ∃ self',
    run declared_in_nested_block
    = Ok (Node.mk "Program" ""
            [ Node.mk "Block" ""
                [ Node.mk "VariableDefinition" "int x" [];
                  Node.mk "Block" ""
                    [ Node.mk "VariableDefinition" "bool x = true" [] ] ] ],
          self').
Proof. eexists. vm_compute. reflexivity. Qed.

(** ** Function names *)

Lemma function_definitions_add_child node child :
  function_definitions (Node.add_child node child)
  = function_definitions node + function_definitions child.
Proof.
  destruct node as [ty v cs]. simpl.
  rewrite map_app, list_sum_app. simpl. lia.
Qed.

Lemma parse_parameters_nodes fuel params_node self node self' :
  parse_parameters fuel params_node self = Ok (node, self') →
  function_definitions node = function_definitions params_node.
Proof.
  revert params_node self.
  induction fuel as [|fuel IH]; simpl; intros p self H; inv_ok; try done.
  apply IH in H. rewrite function_definitions_add_child in H.
  simpl in H. lia.
Qed.

Lemma parse_variable_definition_nodes fuel self node self' :
  parse_variable_definition fuel self = Ok (node, self') →
  function_definitions node = 0.
Proof. unfold parse_variable_definition. intros H. by inv_ok. Qed.

Lemma parse_generic_statement_nodes self node self' :
  parse_generic_statement self = Ok (node, self') →
  function_definitions node = 0.
Proof. unfold parse_generic_statement. intros H. by inv_ok. Qed.

Lemma size_register (name : string) (names : gset string) :
  name ∉ names → size ({[name]} ∪ names) = S (size names).
Proof.
  intros Hn. rewrite size_union by set_solver. by rewrite size_singleton.
Qed.

Lemma parse_parameters_functions fuel params_node self node self' :
  parse_parameters fuel params_node self = Ok (node, self') →
  defined_functions self' = defined_functions self.
Proof.
  revert params_node self.
  induction fuel as [|fuel IH]; simpl; intros p self H; inv_ok; try done.
  apply IH in H. fields. congruence.
Qed.

Lemma parse_variable_definition_functions fuel self node self' :
  parse_variable_definition fuel self = Ok (node, self') →
  defined_functions self' = defined_functions self.
Proof.
  unfold parse_variable_definition. intros H. inv_ok; use_frames; fields;
    congruence.
Qed.

(** Rewrites the counts of the nodes built so far. *)
Ltac count_nodes :=
  repeat match goal with
  | H : parse_parameters _ _ _ = Ok _ |- _ =>
      pose proof (parse_parameters_nodes _ _ _ _ _ H);
      pose proof (parse_parameters_functions _ _ _ _ _ H); revert H
  | H : parse_variable_definition _ _ = Ok _ |- _ =>
      pose proof (parse_variable_definition_nodes _ _ _ _ H);
      pose proof (parse_variable_definition_functions _ _ _ _ H); revert H
  | H : parse_generic_statement _ = Ok _ |- _ =>
      pose proof (parse_generic_statement_nodes _ _ _ H); revert H
  end; intros;
  rewrite ?function_definitions_add_child in *; simpl in *.

Lemma productions_register fuel :
  (∀ self node self',
     parse_statement_or_block fuel self = Ok (node, self') →
     registers self node self') ∧
  (∀ self node self',
     parse_block fuel self = Ok (node, self') → registers self node self') ∧
  (∀ block_node self node self',
     parse_block_loop fuel block_node self = Ok (node, self') →
     registers_more self block_node node self') ∧
  (∀ self node self',
     parse_function_definition fuel self = Ok (node, self') →
     registers self node self') ∧
  (∀ self node self',
     parse_if_conditional fuel self = Ok (node, self') →
     registers self node self') ∧
  (∀ self node self',
     parse_for_loop fuel self = Ok (node, self') → registers self node self').
Proof.
  unfold registers, registers_more.
  induction fuel as [|fuel (IHs & IHb & IHl & IHf & IHi & IHo)].
  { repeat split; intros; discriminate. }
  repeat apply conj; intros; simpl in *; inv_ok;
    repeat match goal with
    | H : parse_statement_or_block _ _ = Ok _ |- _ => apply IHs in H
    | H : parse_block _ _ = Ok _ |- _ => apply IHb in H
    | H : parse_block_loop _ _ _ = Ok _ |- _ => apply IHl in H
    | H : parse_function_definition _ _ = Ok _ |- _ => apply IHf in H
    | H : parse_if_conditional _ _ = Ok _ |- _ => apply IHi in H
    | H : parse_for_loop _ _ = Ok _ |- _ => apply IHo in H
    end;
    count_nodes; use_frames; fields;
    repeat match goal with
    | H : defined_functions ?a = _ |- _ =>
        let d := fresh "d" in
        set (d := defined_functions a) in *; clearbody d; subst d
    end;
    rewrite ?size_register in * by done; lia.
Qed.

Lemma parse_loop_registers fuel program_node self node self' :
  parse_loop fuel program_node self = Ok (node, self') →
  registers_more self program_node node self'.
Proof.
  unfold registers_more. revert program_node self.
  induction fuel as [|fuel IH]; simpl; intros p self H; inv_ok; try done.
  apply IH in H.
  match goal with
  | H : parse_statement_or_block _ _ = Ok _ |- _ =>
      apply productions_register in H; unfold registers in H
  end.
  rewrite function_definitions_add_child in H. lia.
Qed.

Lemma run_registers tokens tree self' :
  run tokens = Ok (tree, self') →
  function_definitions tree = size (defined_functions self').
Proof.
  unfold run, parse. intros H. inv_ok.
  match goal with
  | H : parse_loop _ _ _ = Ok _ |- _ =>
      apply parse_loop_registers in H; unfold registers_more in H
  end.
  fields.
  repeat match goal with
  | H : defined_functions ?a = _ |- _ =>
      let d := fresh "d" in
      set (d := defined_functions a) in *; clearbody d; subst d
  end.
  rewrite size_empty in *. lia.
Qed.

(** C4.  Function names are globally unique.  In whatever state the parser
    is (whatever the depth of blocks and scopes), a function definition
    whose name is in the global set fails with the semantic error for that
    name as soon as the name is read.  The set is populated once per
    definition: an accepted definition had a name that was not in the set
    and has put it there.  Nothing is ever removed: an accepted statement or
    block leaves every name in the set.  Hence an accepted program has as
    many function definitions, at all depths, as names in the set: no two of
    them have the same name. *)
Theorem function_names_globally_unique :
  (∀ fuel self func_name,
     at_function_definition func_name self →
     func_name ∈ defined_functions self →
     parse_statement_or_block (S (S fuel)) self
     = Raise (Runtime (FunctionAlreadyDefined func_name))) ∧
  (∀ fuel self func_name node self',
     at_function_definition func_name self →
     parse_statement_or_block fuel self = Ok (node, self') →
     (func_name ∉ defined_functions self) ∧
     (func_name ∈ defined_functions self')) ∧
  (∀ fuel self node self',
     parse_statement_or_block fuel self = Ok (node, self') ∨
     parse_block fuel self = Ok (node, self') →
     defined_functions self ⊆ defined_functions self') ∧
  (∀ tokens tree self',
     run tokens = Ok (tree, self') →
     function_definitions tree = size (defined_functions self')).
Proof.
  repeat apply conj.
  - intros fuel self name (t1 & t2 & t3 & H1 & Ht1 & H2 & Ht2 & H3 & Ht3 & <-) Hin.
    simpl. unfold current_token. rewrite H1.
    repeat (case_decide; try congruence).
    eat_token t1. eat_token t2. eat_token t3.
    by rewrite decide_True.
  - intros fuel self name node self'
      (t1 & t2 & t3 & H1 & Ht1 & H2 & Ht2 & H3 & Ht3 & <-) H.
    destruct fuel as [|fuel]; [discriminate|]. simpl in H.
    unfold current_token in H. rewrite H1 in H.
    repeat (case_decide; try congruence).
    destruct fuel as [|fuel]; [discriminate|]. simpl in H.
    rewrite (eat_at _ _ t1) in H by done. simpl in H.
    rewrite (eat_at _ _ t2) in H by done. simpl in H.
    rewrite (eat_at _ _ t3) in H by done. simpl in H.
    inv_ok. split; [done|]. use_frames. fields. solve_functions.
  - intros fuel self node self' [H|H]; use_frames; by fields.
  - apply run_registers.
Qed.

Lemma function_names_globally_unique_witness :
  at_function_definition "main" nested_main ∧
  "main" ∈ defined_functions nested_main ∧
  parse_statement_or_block 2 nested_main
  = Raise (Runtime (FunctionAlreadyDefined "main")).
Proof.
  assert (at_function_definition "main" nested_main) as Hat.
  { exists (tok "FUNCTION_DEFINITION" "def"), (tok "TYPE" "int"),
      (tok "IDENTIFIER" "main").
    repeat split; reflexivity. }
  assert ("main" ∈ defined_functions nested_main) as Hin
    by (vm_compute; reflexivity).
  split; [exact Hat|]. split; [exact Hin|].
  exact (proj1 function_names_globally_unique 0 nested_main "main" Hat Hin).
Defined.

Example duplicate_function_in_sequence :
  run [ tok "PROGRAM_START" "program";
        tok "FUNCTION_DEFINITION" "def"; tok "TYPE" "int";
        tok "IDENTIFIER" "main"; tok "LEFT_PAREN" "("; tok "RIGHT_PAREN" ")";
        tok "START_STATEMENT" ":"; tok "BLOCK_START" "{"; tok "BLOCK_END" "}";
        tok "BLOCK_START" "{";
        tok "FUNCTION_DEFINITION" "def"; tok "TYPE" "bool";
        tok "IDENTIFIER" "main"; tok "LEFT_PAREN" "(" ]
  = Raise (Runtime (FunctionAlreadyDefined "main")).
Proof. vm_compute. reflexivity. Qed.

Example duplicate_function_in_own_body :
  run (tok "PROGRAM_START" "program" :: tokens nested_main)
  = Raise (Runtime (FunctionAlreadyDefined "main")).
Proof. vm_compute. reflexivity. Qed.

(** ** Leaving a block *)

(** C6, as stated, fails: [x] is defined by a variable definition inside the
    block, and after the block's [BLOCK_END] it still resolves, in the
    frame outside the block; the [Return] of it is accepted. *)
Lemma shadowed_name_resolves_after_block :
  ∃ self',
    run shadowing
    = Ok (Node.mk "Program" ""
            [ Node.mk "VariableDefinition" "int x" [];
              Node.mk "Block" "" [ Node.mk "VariableDefinition" "bool x" [] ];
              Node.mk "Return" "x" [] ],
          self').
Proof. eexists. vm_compute. reflexivity. Qed.

(** C6, amended.  The lifetime of a block's frame is the block: after the
    block's [BLOCK_END] the scope stack is the one before its [BLOCK_START],
    so a name resolves after the block exactly if it did before.  A name that
    no frame outside the block has, whatever the block defined, is
    unresolvable again: returning it, right after the block or in a sibling
    block, fails with the semantic error "variable not defined". *)
Theorem block_exit_restores_scopes fuel self block self' :
  parse_block fuel self = Ok (block, self') →
  variable_scopes self' = variable_scopes self ∧
  (∀ name, is_variable_defined name self' = is_variable_defined name self) ∧
  (∀ name budget t1 t2,
     is_variable_defined name self = false →
     tokens self' !! current self' = Some t1 → Token.type t1 = "RETURN" →
     tokens self' !! S (current self') = Some t2 →
     Token.type t2 = "IDENTIFIER" → Token.value t2 = name →
     parse_statement_or_block (S budget) self'
     = Raise (Runtime (VariableNotDefined name))) ∧
  (∀ name budget t0 t1 t2,
     is_variable_defined name self = false →
     tokens self' !! current self' = Some t0 → Token.type t0 = "BLOCK_START" →
     tokens self' !! S (current self') = Some t1 → Token.type t1 = "RETURN" →
     tokens self' !! S (S (current self')) = Some t2 →
     Token.type t2 = "IDENTIFIER" → Token.value t2 = name →
     parse_statement_or_block (S (S (S (S budget)))) self'
     = Raise (Runtime (VariableNotDefined name))).
Proof.
  intros H. apply parse_block_Ok in H as (_ & _ & Hscopes).
  assert (∀ name, is_variable_defined name self' = is_variable_defined name self)
    as Hdef.
  { intros name. unfold is_variable_defined. by rewrite Hscopes. }
  repeat apply conj; try done.
  - intros name budget t1 t2 Hundef H1 Ht1 H2 Ht2 <-.
    rewrite <- Hdef in Hundef.
    simpl. unfold current_token. rewrite H1.
    repeat (case_decide; try congruence).
    unfold parse_generic_statement, current_token. rewrite H1.
    rewrite decide_True by done.
    eat_token t1. eat_token t2.
    change (is_variable_defined (Token.value t2) self' = false) in Hundef.
    unfold is_variable_defined in *. simpl. by rewrite Hundef.
  - intros name budget t0 t1 t2 Hundef H0 Ht0 H1 Ht1 H2 Ht2 <-.
    rewrite <- Hdef in Hundef.
    simpl. unfold current_token. rewrite H0.
    rewrite decide_True by done.
    eat_token t0. unfold current_token. simpl. rewrite H1.
    rewrite decide_False by congruence.
    repeat (case_decide; try congruence).
    unfold parse_generic_statement, current_token. simpl. rewrite H1.
    rewrite decide_True by done.
    eat_token t1. eat_token t2.
    unfold is_variable_defined in *. simpl.
    rewrite decide_False by (rewrite lookup_empty; by intros []).
    by rewrite Hundef.
Qed.

Lemma block_exit_restores_scopes_witness :
  ∃ block self',
    parse_block 20 (new block_then_return) = Ok (block, self') ∧
    variable_scopes self' = [∅] ∧
    parse_statement_or_block 1 self' = Raise (Runtime (VariableNotDefined "y")).
Proof.
  eexists _, _. split; [vm_compute; reflexivity|].
  match goal with
  | |- variable_scopes ?s = _ ∧ _ =>
      assert (parse_block 20 (new block_then_return)
              = Ok (Node.mk "Block" ""
                      [Node.mk "VariableDefinition" "int y" []], s)) as Hblock
        by (vm_compute; reflexivity)
  end.
  split.
  - apply (proj1 (block_exit_restores_scopes _ _ _ _ Hblock)).
  - apply (proj1 (proj2 (proj2 (block_exit_restores_scopes _ _ _ _ Hblock)))
             "y" 0 (tok "RETURN" "return") (tok "IDENTIFIER" "y"));
      reflexivity.
Defined.

(** ** The clauses of a for loop *)

Lemma drop_cons_inv {A} (l : list A) n x rest :
  drop n l = x :: rest → l !! n = Some x ∧ drop (S n) l = rest.
Proof.
  revert l. induction n as [|n IH]; intros [|y l] H; simplify_eq/=; auto.
Qed.

Lemma parse_for_clause_flattens terminator fuel value self
    (ts rest : list Token.t) :
  drop (current self) (tokens self) = (ts ++ rest)%list →
  flattened terminator self ts →
  match rest with [] => True | t :: _ => Token.type t = terminator end →
  length ts < fuel →
  parse_for_clause terminator fuel value self
  = Ok (flatten value ts, set_current (current self + length ts) self).
Proof.
  revert fuel value self.
  induction ts as [|t ts IH]; intros [|fuel] value self Hdrop Hts Hrest Hfuel;
    simpl in *; try lia.
  - unfold current_token.
    rewrite Nat.add_0_r. destruct self; simpl in *.
    destruct rest as [|t rest].
    + rewrite (proj2 (lookup_ge_None _ _)); [done|].
      apply drop_nil_inv in Hdrop. done.
    + apply drop_cons_inv in Hdrop as [-> _]. by rewrite decide_True.
  - apply drop_cons_inv in Hdrop as [Ht Hdrop].
    apply Forall_cons in Hts as [[Hterm Hid] Hts].
    unfold current_token. rewrite Ht.
    rewrite decide_False by done.
    destruct (bool_decide (Token.type t = "IDENTIFIER")) eqn:Hb; simpl.
    + apply bool_decide_eq_true in Hb. rewrite (Hid Hb). simpl.
      rewrite (IH fuel _ (advance self)); simpl; try done; try lia.
      do 2 f_equal. unfold set_current. simpl. f_equal. lia.
    + rewrite (IH fuel _ (advance self)); simpl; try done; try lia.
      do 2 f_equal. unfold set_current. simpl. f_equal. lia.
Qed.

Lemma parse_for_clause_undefined terminator fuel value self
    (ts : list Token.t) token rest :
  drop (current self) (tokens self) = (ts ++ token :: rest)%list →
  flattened terminator self ts →
  Token.type token = "IDENTIFIER" → terminator ≠ "IDENTIFIER" →
  is_variable_defined (Token.value token) self = false →
  length ts < fuel →
  parse_for_clause terminator fuel value self
  = Raise (Runtime (VariableNotDefined (Token.value token))).
Proof.
  revert fuel value self.
  induction ts as [|t ts IH];
    intros [|fuel] value self Hdrop Hts Htype Hterm Hundef Hfuel;
    simpl in *; try lia.
  - apply drop_cons_inv in Hdrop as [Ht _].
    unfold current_token. rewrite Ht.
    rewrite decide_False by congruence.
    rewrite bool_decide_eq_true_2 by done. by rewrite Hundef.
  - apply drop_cons_inv in Hdrop as [Ht Hdrop].
    apply Forall_cons in Hts as [[Hterm' Hid] Hts].
    unfold current_token. rewrite Ht.
    rewrite decide_False by done.
    destruct (bool_decide (Token.type t = "IDENTIFIER")) eqn:Hb; simpl.
    + apply bool_decide_eq_true in Hb. rewrite (Hid Hb). simpl.
      apply IH; simpl; try done; lia.
    + apply IH; simpl; try done; lia.
Qed.

Lemma eat_plain type_ self token :
  current_token self = Some token → Token.type token = type_ →
  delta type_ = 0%Z → eat type_ self = Ok (token, advance self).
Proof.
  intros H1 H2 Hd. rewrite (eat_at _ _ _ H1 H2), Hd. do 2 f_equal.
  destruct self; unfold set_block_counter, advance, set_current; simpl.
  f_equal. lia.
Qed.

(** Runs [eat] on a token known to be there, of a type other than those of
    the block delimiters. *)
Ltac eat_plain_token t :=
  rewrite (eat_plain _ _ t) by (try done; unfold current_token; simpl; done);
  simpl.

Lemma parse_variable_definition_binds fuel self node self' t_name :
  parse_variable_definition fuel self = Ok (node, self') →
  tokens self !! (2 + current self) = Some t_name →
  is_variable_defined (Token.value t_name) self' = true.
Proof.
  unfold parse_variable_definition. intros H Hname.
  inv_ok;
    repeat match goal with
    | H : eat "VARIABLE_DEFINITION" _ = Ok _ |- _ => apply eat_Ok in H as (? & ? & ->)
    | H : eat "TYPE" _ = Ok _ |- _ => apply eat_Ok in H as (? & ? & ->)
    | H : eat "IDENTIFIER" _ = Ok _ |- _ => apply eat_Ok in H as (? & ? & ->)
    | H : bind_innermost _ _ _ = Ok _ |- _ =>
        apply bind_innermost_Ok in H as (? & ? & ? & ->)
    end;
    unfold current_token in *; simpl in *; simplify_eq;
    use_frames; fields; unfold is_variable_defined;
    repeat match goal with
    | H : variable_scopes ?a = _ |- _ =>
        let v := fresh "v" in
        set (v := variable_scopes a) in *; clearbody v; subst v
    end;
    simpl; rewrite decide_True; try done;
    rewrite lookup_insert_eq; eauto.
Qed.

(** C7.  In a for loop whose initializer has been parsed, leaving the parser
    in [self1]: the initializer's variable resolves in [self1]; the tokens of
    the condition, up to "COMMAND_END", and of the increment, up to
    "RIGHT_PAREN", are flattened one by one, those of type "IDENTIFIER" only
    if they resolve in [self1]; the first that does not aborts the parse
    with the semantic error that names it; tokens of other types are
    appended to the text unchecked. *)
Theorem for_clauses_check_identifiers fuel self t_for t_paren t_var init self1 :
  tokens self !! current self = Some t_for → Token.type t_for = "FOR_LOOP" →
  tokens self !! S (current self) = Some t_paren →
  Token.type t_paren = "LEFT_PAREN" →
  tokens self !! S (S (current self)) = Some t_var →
  Token.type t_var = "VARIABLE_DEFINITION" →
  parse_variable_definition fuel (advance (advance self)) = Ok (init, self1) →
  (∀ t_name,
     tokens self !! (4 + current self) = Some t_name →
     is_variable_defined (Token.value t_name) self1 = true) ∧
  (∀ (cond : list Token.t) token rest,
     drop (current self1) (tokens self) = (cond ++ token :: rest)%list →
     flattened "COMMAND_END" self1 cond →
     Token.type token = "IDENTIFIER" →
     is_variable_defined (Token.value token) self1 = false →
     length cond < fuel →
     parse_for_loop (S fuel) self
     = Raise (Runtime (VariableNotDefined (Token.value token)))) ∧
  (∀ (cond : list Token.t) t_end (incr : list Token.t) token rest,
     drop (current self1) (tokens self)
     = (cond ++ t_end :: incr ++ token :: rest)%list →
     flattened "COMMAND_END" self1 cond →
     Token.type t_end = "COMMAND_END" →
     flattened "RIGHT_PAREN" self1 incr →
     Token.type token = "IDENTIFIER" →
     is_variable_defined (Token.value token) self1 = false →
     length cond < fuel → length incr < fuel →
     parse_for_loop (S fuel) self
     = Raise (Runtime (VariableNotDefined (Token.value token)))) ∧
  (∀ (cond : list Token.t) t_end (incr : list Token.t) t_close rest,
     drop (current self1) (tokens self)
     = (cond ++ t_end :: incr ++ t_close :: rest)%list →
     flattened "COMMAND_END" self1 cond →
     Token.type t_end = "COMMAND_END" →
     flattened "RIGHT_PAREN" self1 incr →
     Token.type t_close = "RIGHT_PAREN" →
     length cond < fuel → length incr < fuel →
     parse_for_loop (S fuel) self
     = '(_, self2) ←
         eat "START_STATEMENT"
           (set_current (current self1 + length cond + length incr + 2) self1);
       '(loop_body_node, self2) ← parse_block fuel self2;
       Ok (Node.mk "ForLoop" ""
             [ init;
               Node.mk "Condition" (strip (flatten "" cond)) [];
               Node.mk "Increment" (strip (flatten "" incr)) [];
               loop_body_node ],
           self2)).
Proof.
  intros H1 Ht1 H2 Ht2 H3 Ht3 Hinit.
  assert (tokens self1 = tokens self) as Htokens.
  { apply parse_variable_definition_Ok in Hinit as [[] _]. done. }
  assert (parse_for_loop (S fuel) self
          = '(condition, self2) ← parse_for_clause "COMMAND_END" fuel "" self1;
            '(_, self2) ← eat "COMMAND_END" self2;
            '(increment, self2) ← parse_for_clause "RIGHT_PAREN" fuel "" self2;
            '(_, self2) ← eat "RIGHT_PAREN" self2;
            '(_, self2) ← eat "START_STATEMENT" self2;
            '(loop_body_node, self2) ← parse_block fuel self2;
            Ok (Node.mk "ForLoop" ""
                  [ init; Node.mk "Condition" (strip condition) [];
                    Node.mk "Increment" (strip increment) [];
                    loop_body_node ],
                self2)) as ->.
  { simpl. eat_plain_token t_for. eat_plain_token t_paren.
    unfold current_token. simpl. rewrite H3, decide_True by done.
    rewrite Hinit. simpl. reflexivity. }
  rewrite <- Htokens.
  repeat apply conj.
  - intros t_name Hname.
    eapply parse_variable_definition_binds; [exact Hinit|]. simpl.
    by rewrite <- Hname, Htokens.
  - intros cond token rest Hdrop Hcond Hty Hundef Hfuel.
    by rewrite (parse_for_clause_undefined _ _ _ _ _ _ _ Hdrop).
  - intros cond t_end incr token rest Hdrop Hcond Hend Hincr Hty Hundef Hf1 Hf2.
    rewrite (parse_for_clause_flattens _ _ _ _ cond (t_end :: incr ++ token :: rest))
      by done.
    simpl.
    pose proof Hdrop as Hdrop'.
    apply (f_equal (drop (length cond))) in Hdrop'.
    rewrite drop_drop, drop_app_length in Hdrop'.
    apply drop_cons_inv in Hdrop' as [Hce Hdrop'].
    rewrite (eat_plain _ _ t_end); try done; simpl.
    by rewrite (parse_for_clause_undefined _ _ _ _ incr token rest).
  - intros cond t_end incr t_close rest Hdrop Hcond Hend Hincr Hclose Hf1 Hf2.
    rewrite (parse_for_clause_flattens _ _ _ _ cond (t_end :: incr ++ t_close :: rest))
      by done.
    simpl.
    pose proof Hdrop as Hdrop'.
    apply (f_equal (drop (length cond))) in Hdrop'.
    rewrite drop_drop, drop_app_length in Hdrop'.
    apply drop_cons_inv in Hdrop' as [Hce Hdrop'].
    rewrite (eat_plain _ _ t_end); try done; simpl.
    rewrite (parse_for_clause_flattens _ _ _ _ incr (t_close :: rest))
      by done.
    simpl.
    pose proof Hdrop' as Hdrop''.
    apply (f_equal (drop (length incr))) in Hdrop''.
    rewrite drop_drop, drop_app_length in Hdrop''.
    apply drop_cons_inv in Hdrop'' as [Hrp _].
    rewrite (eat_plain _ _ t_close); try done; simpl.
    replace (advance _) with
      (set_current (current self1 + length cond + length incr + 2) self1);
      [done|].
    unfold advance, set_current. simpl. f_equal. lia.
Qed.

Lemma for_clauses_check_identifiers_witness :
  parse_variable_definition 10 (advance (advance for_undefined))
  = Ok (Node.mk "VariableDefinition" "int i" [],
        set_variable_scopes [{["i" := "int"]}] (set_current 6 for_undefined)) ∧
  parse_for_loop 11 for_undefined = Raise (Runtime (VariableNotDefined "n")).
Proof.
  assert (parse_variable_definition 10 (advance (advance for_undefined))
          = Ok (Node.mk "VariableDefinition" "int i" [],
                set_variable_scopes [{["i" := "int"]}]
                  (set_current 6 for_undefined))) as Hinit
    by (vm_compute; reflexivity).
  split; [exact Hinit|].
  apply (proj1 (proj2 (for_clauses_check_identifiers 10 for_undefined
                         (tok "FOR_LOOP" "for") (tok "LEFT_PAREN" "(")
                         (tok "VARIABLE_DEFINITION" "var") _ _
                         eq_refl eq_refl eq_refl eq_refl eq_refl eq_refl Hinit))
           [tok "IDENTIFIER" "i"; tok "LESS" "<"] (tok "IDENTIFIER" "n")
           [tok "COMMAND_END" ";"]).
  - reflexivity.
  - repeat constructor; try done.
  - reflexivity.
  - reflexivity.
  - simpl. lia.
Defined.

(** ** What a parse can raise *)

Lemma truncated_for_at (l : list Token.t) c t1 t2 :
  l !! c = Some t1 → l !! S c = Some t2 → l !! S (S c) = None →
  Token.type t1 = "FOR_LOOP" → Token.type t2 = "LEFT_PAREN" → truncated_for l.
Proof.
  intros H1 H2 H3 Ht1 Ht2. exists (take c l), t1, t2. repeat split; try done.
  rewrite <- (take_drop c l) at 1. f_equal.
  rewrite (drop_S _ _ _ H1), (drop_S _ _ _ H2).
  apply lookup_ge_None in H3. by rewrite drop_ge.
Qed.

Lemma parse_for_clause_Raise terminator fuel value self x :
  parse_for_clause terminator fuel value self = Raise x → classified x.
Proof.
  revert value self. induction fuel as [|fuel IH]; simpl; intros v self H.
  - done.
  - inv_run; eauto. by eexists.
Qed.

Ltac classify :=
  match goal with
  | |- classified (Runtime _) => by eexists
  | |- classified (Runtime _) ∨ _ => left; by eexists
  end.

(** The scope stack of a state in the context is not empty, contrary to a
    hypothesis. *)
Ltac scopes_nonempty :=
  use_frames; fields;
  repeat match goal with
  | H : variable_scopes ?a = _ |- _ =>
      let v := fresh "v" in
      set (v := variable_scopes a) in *; clearbody v; subst v
  end;
  simpl in *;
  repeat match goal with
  | H : tail ?l = _ |- _ => destruct l; simpl in *; subst
  end;
  simpl in *; first [ lia | congruence | done ].

Lemma parse_parameters_Raise fuel params_node self x :
  parse_parameters fuel params_node self = Raise x →
  0 < length (variable_scopes self) → classified x.
Proof.
  revert params_node self.
  induction fuel as [|fuel IH]; simpl; intros p self H Hs; [done|].
  inv_run; try classify; try (exfalso; scopes_nonempty).
  eapply IH; [eassumption|]. scopes_nonempty.
Qed.

Lemma parse_variable_definition_Raise fuel self x :
  parse_variable_definition fuel self = Raise x →
  0 < length (variable_scopes self) → classified x.
Proof.
  unfold parse_variable_definition. intros H Hs.
  inv_run; try classify; try (exfalso; scopes_nonempty);
    by exfalso; eapply parse_expression_Raise.
Qed.

Lemma parse_generic_statement_Raise self x :
  parse_generic_statement self = Raise x →
  is_Some (current_token self) → classified x.
Proof.
  unfold parse_generic_statement. intros H [t Ht]. rewrite Ht in H.
  inv_run; classify.
Qed.

Lemma productions_raise fuel :
  (∀ self x,
     parse_statement_or_block fuel self = Raise x →
     0 < length (variable_scopes self) → is_Some (current_token self) →
     production_raises self x) ∧
  (∀ self x,
     parse_block fuel self = Raise x → production_raises self x) ∧
  (∀ block_node self x,
     parse_block_loop fuel block_node self = Raise x →
     0 < length (variable_scopes self) → production_raises self x) ∧
  (∀ self x,
     parse_function_definition fuel self = Raise x → production_raises self x) ∧
  (∀ self x,
     parse_if_conditional fuel self = Raise x → production_raises self x) ∧
  (∀ self x,
     parse_for_loop fuel self = Raise x →
     0 < length (variable_scopes self) → production_raises self x).
Proof.
  unfold production_raises.
  induction fuel as [|fuel (IHs & IHb & IHl & IHf & IHi & IHo)].
  { repeat split; intros; discriminate. }
  repeat apply conj; intros; simpl in *; inv_run; try classify;
    try (exfalso; scopes_nonempty);
    try (by exfalso; eapply parse_expression_Raise);
    try (left; by eapply parse_for_clause_Raise);
    try match goal with
    | H : is_Some None |- _ => by destruct H
    | H : parse_variable_definition _ _ = Raise _ |- _ =>
        left; eapply parse_variable_definition_Raise; [exact H|scopes_nonempty]
    | H : parse_parameters _ _ _ = Raise _ |- _ =>
        left; eapply parse_parameters_Raise; [exact H|scopes_nonempty]
    | H : parse_generic_statement _ = Raise _ |- _ =>
        left; eapply parse_generic_statement_Raise; [exact H|done]
    end;
    try match goal with
    | H : parse_statement_or_block _ _ = Raise _ |- _ =>
        apply IHs in H; [|scopes_nonempty|eauto]
    | H : parse_block _ _ = Raise _ |- _ => apply IHb in H
    | H : parse_block_loop _ _ _ = Raise _ |- _ =>
        apply IHl in H; [|scopes_nonempty]
    | H : parse_function_definition _ _ = Raise _ |- _ => apply IHf in H
    | H : parse_if_conditional _ _ = Raise _ |- _ => apply IHi in H
    | H : parse_for_loop _ _ = Raise _ |- _ => apply IHo in H; [|scopes_nonempty]
    end;
    try match goal with
    | H : classified _ ∨ _ |- _ =>
        destruct H as [H | [-> H]]; [by left|];
        right; split; [done|];
        match goal with
        | H : truncated_for (tokens ?s) |- truncated_for (tokens ?s') =>
            replace (tokens s') with (tokens s);
              [exact H | use_frames; fields; congruence]
        end
    end.
  right. split; [done|].
  repeat match goal with
  | H : eat _ _ = Ok _ |- _ => apply eat_Ok in H as (? & ? & ->)
  end.
  unfold current_token in *. simpl in *.
  match goal with
  | Ha : tokens self !! current self = Some ?a,
    Hb : tokens self !! S (current self) = Some ?b |- _ =>
      by apply (truncated_for_at _ (current self) a b)
  end.
Qed.

Lemma parse_loop_Raise fuel program_node self x :
  parse_loop fuel program_node self = Raise x →
  0 < length (variable_scopes self) → production_raises self x.
Proof.
  revert program_node self.
  induction fuel as [|fuel IH]; simpl; intros p self H Hs; [done|].
  inv_run.
  - match goal with
    | H : parse_statement_or_block _ _ = Raise _ |- _ =>
        apply productions_raise in H; [done|done|eauto]
    end.
  - apply IH in H as [H | [-> H]]; [by left| |scopes_nonempty].
    right. split; [done|].
    match goal with
    | H : truncated_for (tokens ?s) |- truncated_for (tokens ?s') =>
        replace (tokens s') with (tokens s);
          [exact H | use_frames; fields; congruence]
    end.
Qed.

Lemma parse_loop_type fuel program_node self node self' :
  parse_loop fuel program_node self = Ok (node, self') →
  Node.type node = Node.type program_node.
Proof.
  revert program_node self.
  induction fuel as [|fuel IH]; simpl; intros p self H; inv_ok; try done.
  by apply IH in H.
Qed.

(** The outcomes of a parse: the tree of a program; one of the errors of
    the productions; or an [AttributeError], for an input that stops right
    after the "(" of a for loop.  The check of the block counter at the end
    of [parse] never fails: the counter is changed by [eat] only, for the
    delimiters of a block that [parse_block] has matched. *)
Lemma run_outcomes tokens :
  (∃ tree self', run tokens = Ok (tree, self') ∧ Node.type tree = "Program") ∨
  (∃ e, run tokens = Raise (Runtime e) ∧
        e ≠ MismatchedBlockDelimiters ∧ e ≠ UnexpectedEndOfInput) ∨
  (run tokens = Raise AttributeError ∧ truncated_for tokens).
Proof.
  destruct (run tokens) as [[tree self']|x|] eqn:Hrun.
  - left. exists tree, self'. split; [done|].
    unfold run, parse in Hrun. inv_ok.
    match goal with
    | H : parse_loop _ _ _ = Ok _ |- _ => by apply parse_loop_type in H
    end.
  - right.
    assert (production_raises (new tokens) x) as [(e & -> & ? & ?) | [-> ?]];
      [|by eauto..].
    unfold run, parse in Hrun. inv_run.
    + left. by eexists.
    + match goal with
      | H : parse_loop _ _ _ = Raise _ |- _ =>
          apply parse_loop_Raise in H as [H | [-> H]]; [| |scopes_nonempty]
      end; [by left|].
      right. split; [done|]. fields. simpl in *. congruence.
    + left. by eexists.
    + exfalso. use_frames. fields. simpl in *. lia.
  - exfalso. revert Hrun. apply parse_fuel. unfold remaining. simpl. lia.
Qed.

(** C1 fails on [truncated]: [parse_for_loop] reads the type of the current
    token when there is none, which is Python's [AttributeError], not one of
    the [RuntimeError]s of the parser. *)
Theorem truncated_for_raises_attribute_error :
  run truncated = Raise AttributeError.
Proof. vm_compute. reflexivity. Qed.

(** ** The block counter *)

(** C2 fails on [stray_block_end]: the "BLOCK_END" is consumed as a generic
    statement, by a plain advance of the cursor, and the block counter does
    not see it. *)
Theorem stray_block_end_is_not_counted :
  ∃ self',
    run stray_block_end
    = Ok (Node.mk "Program" "" [ Node.mk "Statement" "}" [] ], self') ∧
    block_counter self' = 0%Z ∧ consumed_balance self' = (-1)%Z.
Proof. eexists. split; [vm_compute; reflexivity|]. split; reflexivity. Qed.

(** The same happens to a "BLOCK_START" that a clause of a for loop
    flattens. *)
Example block_start_in_condition_is_not_counted :
  ∃ tree self',
    run block_start_in_condition = Ok (tree, self') ∧
    block_counter self' = 0%Z ∧ consumed_balance self' = 1%Z.
Proof. eexists _, _. split; [vm_compute; reflexivity|]. split; reflexivity. Qed.

(** ** The ends of an accepted input *)

(** X1.  An accepted input begins with a token of type "PROGRAM_START",
    and the parse stops right after a token of type "PROGRAM_END" that is
    not the first token: the final cursor is the position after it. *)
Theorem accepted_input_is_delimited tokens tree self' :
  run tokens = Ok (tree, self') →
  ∃ t_start t_end last,
    tokens !! 0 = Some t_start ∧ Token.type t_start = "PROGRAM_START" ∧
    0 < last ∧ current self' = S last ∧
    tokens !! last = Some t_end ∧ Token.type t_end = "PROGRAM_END".
Proof.
  unfold run, parse. intros H. inv_ok.
  match goal with
  | H : parse_loop _ _ _ = Ok _ |- _ => apply parse_loop_Ok in H as []
  end.
  repeat match goal with
  | H : eat _ _ = Ok _ |- _ => apply eat_Ok in H as (? & ? & ->)
  end.
  unfold current_token in *. simpl in *.
  match goal with
  | H : Parser.tokens ?s = _ |- _ => rewrite H in *
  end.
  eexists _, _, _. repeat split; try eassumption; simpl; lia.
Qed.

Lemma accepted_input_is_delimited_witness :
  ∃ tree self',
    run (scenario "" "" "" "" "" "" "") = Ok (tree, self') ∧
    ∃ t_start t_end last,
      scenario "" "" "" "" "" "" "" !! 0 = Some t_start ∧
      Token.type t_start = "PROGRAM_START" ∧
      0 < last ∧ current self' = S last ∧
      scenario "" "" "" "" "" "" "" !! last = Some t_end ∧
      Token.type t_end = "PROGRAM_END".
Proof.
  eexists _, _.
  assert (∀ A B : Prop, A → (A → B) → A ∧ B) as both by tauto.
  apply both; [vm_compute; reflexivity|].
  apply accepted_input_is_delimited.
Defined.

(** X2.  An input whose first token is not of type "PROGRAM_START", the
    empty input included, is rejected at once: [parse] raises the error of
    [eat] that names the token found ([None] for the empty input) and the
    type expected. *)
Theorem input_without_program_start_rejected (tokens : list Token.t) :
  (∀ token, head tokens = Some token → Token.type token ≠ "PROGRAM_START") →
  run tokens = Raise (Runtime (UnexpectedToken (head tokens) "PROGRAM_START")).
Proof.
  intros H. unfold run, parse, eat, current_token. simpl.
  destruct tokens as [|token tokens]; simpl; [done|].
  rewrite decide_False; [done|]. by apply H.
Qed.

Lemma input_without_program_start_rejected_witness :
  run [] = Raise (Runtime (UnexpectedToken None "PROGRAM_START")) ∧
  message (UnexpectedToken None "PROGRAM_START")
  = "Unexpected token: None, expected: PROGRAM_START.".
Proof.
  split; [|reflexivity].
  apply (input_without_program_start_rejected []). intros token H. discriminate H.
Defined.

(** ** The shape of the tree *)

Lemma parse_parameters_tree fuel type_ value parameters self node self' :
  parse_parameters fuel (Node.mk type_ value parameters) self = Ok (node, self') →
  Forall (λ parameter, ∃ text, parameter = Node.mk "Parameter" text [])
         parameters →
  ∃ parameters',
    node = Node.mk type_ value parameters' ∧
    Forall (λ parameter, ∃ text, parameter = Node.mk "Parameter" text [])
           parameters'.
Proof.
  revert parameters self.
  induction fuel as [|fuel IH]; simpl; intros ps self H Hps; inv_ok; eauto.
  unfold Node.add_child in H. simpl in H.
  apply IH in H; [done|]. apply Forall_app. split; [done|].
  repeat constructor. by eexists.
Qed.

Lemma parse_variable_definition_tree fuel self node self' :
  parse_variable_definition fuel self = Ok (node, self') →
  ∃ value, node = Node.mk "VariableDefinition" value [].
Proof. unfold parse_variable_definition. intros H. inv_ok; by eexists. Qed.

Lemma parse_generic_statement_tree self node self' :
  parse_generic_statement self = Ok (node, self') → statement_tree node.
Proof. unfold parse_generic_statement. intros H. inv_ok; constructor. Qed.

Lemma productions_tree fuel :
  (∀ self node self',
     parse_statement_or_block fuel self = Ok (node, self') →
     statement_tree node) ∧
  (∀ self node self',
     parse_block fuel self = Ok (node, self') →
     ∃ body, node = Node.mk "Block" "" body ∧ Forall statement_tree body) ∧
  (∀ type_ value children self node self',
     parse_block_loop fuel (Node.mk type_ value children) self
     = Ok (node, self') →
     Forall statement_tree children →
     ∃ children',
       node = Node.mk type_ value children' ∧
       Forall statement_tree children') ∧
  (∀ self node self',
     parse_function_definition fuel self = Ok (node, self') →
     statement_tree node) ∧
  (∀ self node self',
     parse_if_conditional fuel self = Ok (node, self') → statement_tree node) ∧
  (∀ self node self',
     parse_for_loop fuel self = Ok (node, self') → statement_tree node).
Proof.
  induction fuel as [|fuel (IHs & IHb & IHl & IHf & IHi & IHo)].
  { repeat split; intros; discriminate. }
  repeat apply conj; intros; simpl in *; inv_ok;
    unfold Node.new, Node.add_child in *; simpl in *;
    repeat match goal with
    | H : parse_statement_or_block _ _ = Ok _ |- _ => apply IHs in H
    | H : parse_block _ _ = Ok _ |- _ => apply IHb in H as (? & -> & ?)
    | H : parse_block_loop _ _ _ = Ok _ |- _ =>
        apply IHl in H as (? & -> & ?);
          [|first [ by constructor | apply Forall_app; by repeat constructor ]]
    | H : parse_function_definition _ _ = Ok _ |- _ => apply IHf in H
    | H : parse_if_conditional _ _ = Ok _ |- _ => apply IHi in H
    | H : parse_for_loop _ _ = Ok _ |- _ => apply IHo in H
    | H : parse_parameters _ _ _ = Ok _ |- _ =>
        apply parse_parameters_tree in H as (? & -> & ?); [|by constructor]
    | H : parse_variable_definition _ _ = Ok _ |- _ =>
        apply parse_variable_definition_tree in H as [? ->]
    | H : parse_generic_statement _ = Ok _ |- _ =>
        apply parse_generic_statement_tree in H
    end;
    simpl; eauto; try by constructor.
Qed.

Lemma parse_loop_tree fuel type_ value children self node self' :
  parse_loop fuel (Node.mk type_ value children) self = Ok (node, self') →
  Forall statement_tree children →
  ∃ children',
    node = Node.mk type_ value children' ∧ Forall statement_tree children'.
Proof.
  revert children self.
  induction fuel as [|fuel IH]; simpl; intros cs self H Hcs; inv_ok; eauto.
  unfold Node.add_child in H. simpl in H.
  apply IH in H; [done|]. apply Forall_app. split; [done|].
  repeat constructor. destruct (productions_tree fuel) as (Hs & _). eauto.
Qed.

(** X3.  The tree of an accepted program is a "Program" node with no
    text whose children are trees of statements: blocks, function
    definitions with their "Parameters" and body, variable definitions, if
    conditionals with one block and at most one "ElseConditional", for loops
    with initializer, "Condition", "Increment" and body, returns and plain
    statements. *)
Theorem accepted_tree_shape tokens tree self' :
  run tokens = Ok (tree, self') →
  ∃ statements,
    tree = Node.mk "Program" "" statements ∧ Forall statement_tree statements.
Proof.
  unfold run, parse. intros H. inv_ok.
  match goal with
  | H : parse_loop _ _ _ = Ok _ |- _ => by apply parse_loop_tree in H
  end.
Qed.

Lemma accepted_tree_shape_witness :
  ∃ tree self',
    run (scenario "" "" "" "" "" "" "") = Ok (tree, self') ∧
    ∃ statements,
      tree = Node.mk "Program" "" statements ∧
      Forall statement_tree statements.
Proof.
  eexists _, _.
  assert (∀ A B : Prop, A → (A → B) → A ∧ B) as both by tauto.
  apply both; [vm_compute; reflexivity|].
  apply accepted_tree_shape.
Defined.

(** ** Statements of no known kind *)

Lemma parse_statement_or_block_other fuel self t :
  current_token self = Some t → Token.type t ∉ keywords →
  parse_statement_or_block (S fuel) self
  = Ok (Node.mk "Statement" (Token.value t) [], advance self).
Proof.
  intros Ht Hkey.
  unfold keywords in Hkey. rewrite !not_elem_of_cons in Hkey.
  destruct Hkey as (? & ? & ? & ? & ? & ? & ? & _).
  simpl. rewrite Ht. rewrite !decide_False by done.
  unfold parse_generic_statement. rewrite Ht.
  by rewrite decide_False by done.
Qed.

Lemma parse_loop_statements fuel program_node self (ts : list Token.t) t_end rest :
  drop (current self) (tokens self) = (ts ++ t_end :: rest)%list →
  Forall (λ t, Token.type t ∉ keywords) ts →
  Token.type t_end = "PROGRAM_END" →
  length ts < fuel →
  parse_loop fuel program_node self
  = Ok (Node.mk (Node.type program_node) (Node.value program_node)
          (Node.children program_node
           ++ map (λ t, Node.mk "Statement" (Token.value t) []) ts),
        set_current (current self + length ts) self).
Proof.
  revert fuel program_node self.
  induction ts as [|t ts IH]; intros [|fuel] node self Hdrop Hts Hend Hfuel;
    simpl in *; try lia.
  - apply drop_cons_inv in Hdrop as [Ht _].
    unfold current_token. rewrite Ht, decide_True by done.
    rewrite app_nil_r, Nat.add_0_r. by destruct node, self.
  - apply drop_cons_inv in Hdrop as [Ht Hdrop].
    apply Forall_cons in Hts as [Hkey Hts].
    destruct fuel as [|fuel]; [lia|].
    rewrite (parse_statement_or_block_other fuel self t Ht Hkey).
    unfold current_token. rewrite Ht.
    rewrite decide_False by (intros Heq; apply Hkey; rewrite Heq; compute_done).
    cbn [mbind result_bind].
    rewrite (IH (S fuel) _ (advance self)); simpl; try done; try lia.
    f_equal. f_equal.
    + unfold Node.add_child. destruct node. simpl. by rewrite <- app_assoc.
    + unfold set_current. simpl. f_equal. lia.
Qed.

(** X4.  Between "PROGRAM_START" and "PROGRAM_END", tokens of types other
    than those that start a statement of their own kind are accepted
    whatever they are, closing delimiters and a stray "ELSE_CONDITIONAL"
    among them: each becomes one "Statement" node that holds its value, and
    the parse changes nothing but the cursor. *)
Theorem unknown_tokens_become_statements t_start (ts : list Token.t) t_end extra :
  Token.type t_start = "PROGRAM_START" →
  Forall (λ t, Token.type t ∉ keywords) ts →
  Token.type t_end = "PROGRAM_END" →
  run (t_start :: ts ++ t_end :: extra)
  = Ok (Node.mk "Program" ""
          (map (λ t, Node.mk "Statement" (Token.value t) []) ts),
        set_current (length ts + 2) (new (t_start :: ts ++ t_end :: extra))).
Proof.
  intros Hstart Hts Hend. unfold run, parse.
  rewrite (eat_plain "PROGRAM_START" _ t_start) by done.
  cbn [mbind result_bind].
  rewrite (parse_loop_statements _ _ _ ts t_end extra); try done.
  - cbn [mbind result_bind].
    rewrite (eat_plain "PROGRAM_END" _ t_end); try done.
    + simpl. do 2 f_equal. unfold advance, set_current. simpl. f_equal. lia.
    + unfold current_token. simpl.
      by rewrite lookup_app_r, Nat.sub_diag by lia.
  - simpl. rewrite length_app. simpl. lia.
Qed.

Lemma unknown_tokens_become_statements_witness :
  run (tok "PROGRAM_START" "program" :: stray_tokens
       ++ tok "PROGRAM_END" "end" :: [])
  = Ok (Node.mk "Program" ""
          [ Node.mk "Statement" "}" []; Node.mk "Statement" "else" [];
            Node.mk "Statement" ")" []; Node.mk "Statement" "program" [] ],
        set_current 6
          (new (tok "PROGRAM_START" "program" :: stray_tokens
                ++ tok "PROGRAM_END" "end" :: []))).
Proof.
  apply (unknown_tokens_become_statements (tok "PROGRAM_START" "program")
           stray_tokens (tok "PROGRAM_END" "end") []).
  - reflexivity.
  - repeat (apply Forall_cons_2; [compute_done|]). apply Forall_nil_2.
  - reflexivity.
Defined.

(** ** Expressions *)

Lemma parse_expression_loop_flattens fuel expr_value self
    (ts rest : list Token.t) :
  drop (current self) (tokens self) = (ts ++ rest)%list →
  Forall (λ t, Token.type t ∉ ["COMMAND_END"; "RIGHT_PAREN"; "BLOCK_END"]) ts →
  match rest with
  | [] => True
  | t :: _ => Token.type t ∈ ["COMMAND_END"; "RIGHT_PAREN"; "BLOCK_END"]
  end →
  length ts < fuel →
  parse_expression_loop fuel expr_value self
  = Ok (flatten expr_value ts, set_current (current self + length ts) self).
Proof.
  revert fuel expr_value self.
  induction ts as [|t ts IH]; intros [|fuel] value self Hdrop Hts Hrest Hfuel;
    simpl in *; try lia.
  - unfold current_token.
    rewrite Nat.add_0_r. destruct self; simpl in *.
    destruct rest as [|t rest].
    + rewrite (proj2 (lookup_ge_None _ _)); [done|].
      apply drop_nil_inv in Hdrop. done.
    + apply drop_cons_inv in Hdrop as [-> _]. by rewrite decide_True.
  - apply drop_cons_inv in Hdrop as [Ht Hdrop].
    apply Forall_cons in Hts as [Hterm Hts].
    unfold current_token. rewrite Ht.
    rewrite decide_False by done.
    rewrite (IH fuel _ (advance self)); simpl; try done; try lia.
    do 2 f_equal. unfold set_current. simpl. f_equal. lia.
Qed.

(** X5.  An expression is the run of tokens up to the first token of type
    "COMMAND_END", "RIGHT_PAREN" or "BLOCK_END", or to the end of the
    input; the tokens are taken as they are, of whatever type, identifiers
    that nothing declares included.  The value of the node is the text made
    of the values of these tokens, each followed by one space, without the
    white space at the two ends of this text: the white space at the start
    of the first value and at the end of the last is lost with it, that
    inside the text is kept.  The parser state changes in the cursor
    only. *)
Theorem expression_flattens_to_terminator fuel self (ts rest : list Token.t) :
  drop (current self) (tokens self) = (ts ++ rest)%list →
  Forall (λ t, Token.type t ∉ ["COMMAND_END"; "RIGHT_PAREN"; "BLOCK_END"]) ts →
  match rest with
  | [] => True
  | t :: _ => Token.type t ∈ ["COMMAND_END"; "RIGHT_PAREN"; "BLOCK_END"]
  end →
  length ts < fuel →
  parse_expression fuel self
  = Ok (Node.mk "Expression" (strip (flatten "" ts)) [],
        set_current (current self + length ts) self).
Proof.
  intros Hdrop Hts Hrest Hfuel. unfold parse_expression.
  by rewrite (parse_expression_loop_flattens _ _ _ ts rest).
Qed.

Lemma expression_flattens_to_terminator_witness :
  is_variable_defined "y" unchecked_expression = false ∧
  parse_expression 4 unchecked_expression
  = Ok (Node.mk "Expression" "y + {" [], set_current 3 unchecked_expression).
Proof.
  split; [reflexivity|].
  apply (expression_flattens_to_terminator 4 unchecked_expression
           [tok "IDENTIFIER" "y"; tok "PLUS" "+"; tok "BLOCK_START" "{"]
           [tok "COMMAND_END" ";"; tok "IDENTIFIER" "z"]).
  - reflexivity.
  - repeat (apply Forall_cons_2; [compute_done|]). apply Forall_nil_2.
  - compute_done.
  - simpl. lia.
Defined.

(** ** Return statements *)

(** X6.  At a token of type "RETURN": the statement is accepted exactly
    when an "IDENTIFIER" that resolves and a "COMMAND_END" follow, giving a
    "Return" node with the name and moving the cursor by three tokens; it
    raises the semantic error "not defined" exactly when the "IDENTIFIER"
    that follows does not resolve, whether or not a "COMMAND_END" comes
    after it. *)
Theorem return_checks_identifier self t_return :
  current_token self = Some t_return → Token.type t_return = "RETURN" →
  (∀ node self',
     parse_generic_statement self = Ok (node, self') ↔
     ∃ t_name t_end,
       tokens self !! S (current self) = Some t_name ∧
       Token.type t_name = "IDENTIFIER" ∧
       tokens self !! S (S (current self)) = Some t_end ∧
       Token.type t_end = "COMMAND_END" ∧
       is_variable_defined (Token.value t_name) self = true ∧
       node = Node.mk "Return" (Token.value t_name) [] ∧
       self' = set_current (current self + 3) self) ∧
  (∀ var_name,
     parse_generic_statement self = Raise (Runtime (VariableNotDefined var_name)) ↔
     ∃ t_name,
       tokens self !! S (current self) = Some t_name ∧
       Token.type t_name = "IDENTIFIER" ∧ Token.value t_name = var_name ∧
       is_variable_defined var_name self = false).
Proof.
  intros Hreturn Htype. unfold parse_generic_statement.
  rewrite Hreturn, decide_True by done.
  rewrite (eat_plain "RETURN" self t_return) by done.
  cbn [mbind result_bind].
  split.
  - intros node self'. split.
    + intros H. inv_ok.
      repeat match goal with
      | H : eat _ _ = Ok _ |- _ => apply eat_Ok in H as (? & ? & ->)
      end.
      unfold current_token in *. eval_delta. simpl in *.
      eexists _, _. repeat split; try eassumption.
      destruct self; unfold set_block_counter, advance, set_current; simpl.
      f_equal; lia.
    + intros (t_name & t_end & Hname & Hid & Hend & Hcmd & Hdef & -> & ->).
      rewrite (eat_plain "IDENTIFIER" (advance self) t_name) by done.
      cbn [mbind result_bind].
      unfold is_variable_defined in *. simpl. rewrite Hdef.
      rewrite (eat_plain "COMMAND_END" (advance (advance self)) t_end) by done.
      simpl. do 2 f_equal. unfold advance, set_current. simpl. f_equal. lia.
  - intros var_name. split.
    + intros H. inv_run.
      repeat match goal with
      | H : eat _ _ = Ok _ |- _ => apply eat_Ok in H as (? & ? & ->)
      end.
      unfold current_token in *. simpl in *.
      eexists. repeat split; try eassumption.
    + intros (t_name & Hname & Hid & <- & Hdef).
      rewrite (eat_plain "IDENTIFIER" (advance self) t_name) by done.
      cbn [mbind result_bind].
      unfold is_variable_defined in *. simpl. by rewrite Hdef.
Qed.

Lemma return_checks_identifier_witness :
  parse_generic_statement return_undeclared
  = Raise (Runtime (VariableNotDefined "y")).
Proof.
  apply (return_checks_identifier return_undeclared (tok "RETURN" "return"));
    [reflexivity | reflexivity |].
  exists (tok "IDENTIFIER" "y"). repeat split; reflexivity.
Defined.

(** ** The parameters of a function *)

Lemma parse_parameters_prefix fuel params_node self params
    (rest : list Token.t) scope scopes :
  drop (current self) (tokens self) = (parameter_tokens params ++ rest)%list →
  variable_scopes self = scope :: scopes →
  fresh_parameters scope params →
  parse_parameters (length params + fuel) params_node self
  = parse_parameters fuel
      (Node.mk (Node.type params_node) (Node.value params_node)
               (Node.children params_node ++ parameter_nodes params))
      (set_variable_scopes (bind_parameters scope params :: scopes)
         (set_current (current self + 2 * length params) self)).
Proof.
  revert params_node self scope.
  induction params as [|[param_type param_name] params IH];
    intros params_node self scope Hdrop Hscopes [Hnodup Hfresh]; simpl in *.
  - rewrite app_nil_r, Nat.add_0_r. destruct params_node, self; simpl in *.
    by rewrite Hscopes.
  - apply drop_cons_inv in Hdrop as [Ht Hdrop].
    apply drop_cons_inv in Hdrop as [Hn Hdrop].
    apply NoDup_cons in Hnodup as [Hnotin Hnodup].
    apply Forall_cons in Hfresh as [Hnone Hfresh]. simpl in *.
    unfold current_token. rewrite Ht. simpl.
    rewrite (eat_plain "TYPE" self _ Ht) by done. simpl.
    rewrite (eat_plain "IDENTIFIER" (advance self) _ Hn) by done. simpl.
    unfold innermost, bind_innermost. simpl. rewrite Hscopes. simpl.
    rewrite decide_False by (rewrite Hnone; by intros []).
    rewrite (IH _ _ (<[param_name := param_type]> scope)); simpl; try done.
    + f_equal.
      * unfold Node.add_child. destruct params_node. simpl.
        by rewrite <- app_assoc.
      * unfold set_variable_scopes, set_current. simpl. f_equal. lia.
    + split; [done|].
      rewrite Forall_forall in Hfresh |- *. intros p Hp.
      rewrite lookup_insert_ne; [by apply Hfresh|].
      intros ->. apply Hnotin. apply list_elem_of_fmap. by exists p.
Qed.

(** X7.  A parameter list of pairs of a "TYPE" and an "IDENTIFIER" token
    with different names, none of them in the innermost frame, that ends at
    a "RIGHT_PAREN" or at the end of the input, is accepted: one "Parameter"
    node per pair, in order, each name bound to its type in the innermost
    frame; the outer frames are neither read nor changed. *)
Theorem parameters_bound_in_order fuel params_node self params
    (rest : list Token.t) scope scopes :
  drop (current self) (tokens self) = (parameter_tokens params ++ rest)%list →
  match rest with [] => True | t :: _ => Token.type t = "RIGHT_PAREN" end →
  variable_scopes self = scope :: scopes →
  fresh_parameters scope params →
  length params < fuel →
  parse_parameters fuel params_node self
  = Ok (Node.mk (Node.type params_node) (Node.value params_node)
                (Node.children params_node ++ parameter_nodes params),
        set_variable_scopes (bind_parameters scope params :: scopes)
          (set_current (current self + 2 * length params) self)).
Proof.
  intros Hdrop Hrest Hscopes Hfresh Hfuel.
  replace fuel with (length params + S (fuel - S (length params))) by lia.
  rewrite (parse_parameters_prefix _ _ _ params rest scope scopes) by done.
  assert (length (parameter_tokens params) = 2 * length params) as Hlen.
  { clear. induction params as [|[] ? IH]; simpl in *; lia. }
  set (cursor := current self + 2 * length params) in *.
  assert (tokens self !! cursor = head rest) as Hcursor.
  { unfold cursor. rewrite <- Hlen, <- lookup_drop, Hdrop.
    rewrite lookup_app_r, Nat.sub_diag by lia. by destruct rest. }
  simpl. unfold current_token. simpl. rewrite Hcursor.
  destruct rest as [|t rest]; simpl; [done|].
  by rewrite decide_True.
Qed.

Lemma parameters_bound_in_order_witness :
  parse_parameters 3 (Node.new "Parameters" "") two_parameters
  = Ok (Node.mk "Parameters" ""
          [ Node.mk "Parameter" "int a" []; Node.mk "Parameter" "bool b" [] ],
        set_variable_scopes
          [ <["b" := "bool"]> (<["a" := "int"]> ∅); {["a" := "char"]} ]
          (set_current 4 two_parameters)).
Proof.
  apply (parameters_bound_in_order 3 (Node.new "Parameters" "") two_parameters
           [("int", "a"); ("bool", "b")] [tok "RIGHT_PAREN" ")"]
           ∅ [{["a" := "char"]}]).
  - reflexivity.
  - reflexivity.
  - reflexivity.
  - split.
    + compute_done.
    + repeat (apply Forall_cons_2; [reflexivity|]). apply Forall_nil_2.
  - simpl. lia.
Defined.

Lemma bind_parameters_lookup scope params name :
  is_Some (bind_parameters scope params !! name)
  ↔ name ∈ params.*2 ∨ is_Some (scope !! name).
Proof.
  revert scope. induction params as [|[param_type param_name] params IH];
    intros scope; simpl.
  - rewrite elem_of_nil. tauto.
  - unfold bind_parameters in *. simpl. rewrite IH, elem_of_cons.
    destruct (decide (name = param_name)) as [->|].
    + rewrite lookup_insert_eq. split; eauto.
    + rewrite lookup_insert_ne by done. tauto.
Qed.

(** X8.  A parameter whose name an earlier parameter of the list has, or
    that the innermost frame held before the list, aborts the parse with the
    semantic error that names it. *)
Theorem repeated_parameter_rejected fuel params_node self params
    t_type t_name (rest : list Token.t) scope scopes :
  drop (current self) (tokens self)
  = (parameter_tokens params ++ t_type :: t_name :: rest)%list →
  Token.type t_type = "TYPE" → Token.type t_name = "IDENTIFIER" →
  variable_scopes self = scope :: scopes →
  fresh_parameters scope params →
  Token.value t_name ∈ params.*2 ∨ is_Some (scope !! Token.value t_name) →
  length params < fuel →
  parse_parameters fuel params_node self
  = Raise (Runtime (ParameterAlreadyDefined (Token.value t_name))).
Proof.
  intros Hdrop Htype Hname Hscopes Hfresh Hdup Hfuel.
  replace fuel with (length params + S (fuel - S (length params))) by lia.
  rewrite (parse_parameters_prefix _ _ _ params (t_type :: t_name :: rest)
             scope scopes) by done.
  assert (length (parameter_tokens params) = 2 * length params) as Hlen.
  { clear. induction params as [|[] ? IH]; simpl in *; lia. }
  set (cursor := current self + 2 * length params) in *.
  assert (tokens self !! cursor = Some t_type) as Ht.
  { unfold cursor. rewrite <- Hlen, <- lookup_drop, Hdrop.
    by rewrite lookup_app_r, Nat.sub_diag by lia. }
  assert (tokens self !! S cursor = Some t_name) as Hn.
  { unfold cursor. rewrite <- Hlen.
    replace (S (current self + length (parameter_tokens params)))
      with (current self + S (length (parameter_tokens params))) by lia.
    rewrite <- lookup_drop, Hdrop.
    rewrite lookup_app_r by lia.
    by replace (S (length (parameter_tokens params))
                - length (parameter_tokens params)) with 1 by lia. }
  apply bind_parameters_lookup in Hdup.
  set (self1 := set_variable_scopes _ _).
  assert (current_token self1 = Some t_type) as Ht1 by done.
  simpl. rewrite Ht1.
  rewrite decide_False by (rewrite Htype; done).
  rewrite (eat_plain "TYPE" self1 _ Ht1) by done. simpl.
  rewrite (eat_plain "IDENTIFIER" (advance self1) t_name) by done. simpl.
  unfold innermost. simpl. by rewrite decide_True.
Qed.

Lemma repeated_parameter_rejected_witness :
  parse_parameters 2 (Node.new "Parameters" "") repeated_parameter
  = Raise (Runtime (ParameterAlreadyDefined "a")).
Proof.
  apply (repeated_parameter_rejected 2 (Node.new "Parameters" "")
           repeated_parameter [("int", "a")]
           (tok "TYPE" "bool") (tok "IDENTIFIER" "a") [tok "RIGHT_PAREN" ")"]
           ∅ [∅]).
  - reflexivity.
  - reflexivity.
  - reflexivity.
  - reflexivity.
  - split.
    + compute_done.
    + repeat (apply Forall_cons_2; [reflexivity|]). apply Forall_nil_2.
  - left. compute_done.
  - simpl. lia.
Defined.

(** ** What a statement does to the scopes *)

Lemma parse_variable_definition_scopes fuel self node self' :
  parse_variable_definition fuel self = Ok (node, self') →
  ∃ t_type t_name,
    tokens self !! S (current self) = Some t_type ∧
    tokens self !! S (S (current self)) = Some t_name ∧
    binds t_type t_name self self'.
Proof.
  unfold parse_variable_definition, binds. intros H.
  inv_ok;
    repeat match goal with
    | H : eat "VARIABLE_DEFINITION" _ = Ok _ |- _ => apply eat_Ok in H as (? & ? & ->)
    | H : eat "TYPE" _ = Ok _ |- _ => apply eat_Ok in H as (? & ? & ->)
    | H : eat "IDENTIFIER" _ = Ok _ |- _ => apply eat_Ok in H as (? & ? & ->)
    | H : bind_innermost _ _ _ = Ok _ |- _ =>
        apply bind_innermost_Ok in H as (? & ? & ? & ->)
    | H : innermost _ = Ok _ |- _ => apply innermost_Ok in H as [? ?]
    | H : ¬ is_Some _ |- _ => rewrite <- eq_None_not_Some in H
    end;
    unfold current_token in *; simpl in *; simplify_eq;
    use_frames; fields;
    repeat match goal with
    | H : variable_scopes ?a = _ |- _ =>
        let v := fresh "v" in
        set (v := variable_scopes a) in *; clearbody v; subst v
    end;
    eexists _, _; (split; [eassumption|]); (split; [eassumption|]);
    eexists _, _; repeat split; try done;
    first [by apply eq_None_not_Some | congruence].
Qed.

Lemma parse_for_loop_scopes fuel self node self' :
  parse_for_loop fuel self = Ok (node, self') →
  ∃ t_type t_name,
    tokens self !! (current self + 3) = Some t_type ∧
    tokens self !! (current self + 4) = Some t_name ∧
    binds t_type t_name self self'.
Proof.
  destruct fuel as [|fuel]; [discriminate|]. simpl. intros H. inv_ok.
  match goal with
  | H : parse_variable_definition _ _ = Ok _ |- _ =>
      apply parse_variable_definition_scopes in H
        as (t_type & t_name & Htype & Hname & scope & scopes & Hs & Hnone & Hs')
  end.
  repeat match goal with
  | H : eat "FOR_LOOP" _ = Ok _ |- _ => apply eat_Ok in H as (? & ? & ->)
  | H : eat "LEFT_PAREN" _ = Ok _ |- _ => apply eat_Ok in H as (? & ? & ->)
  end.
  simpl in *. use_frames. fields.
  exists t_type, t_name.
  replace (current self + 3) with (S (S (S (current self)))) by lia.
  replace (current self + 4) with (S (S (S (S (current self))))) by lia.
  repeat split; try done.
  exists scope, scopes. repeat split; try done. congruence.
Qed.

(** The cases of a successful [parse_statement_or_block], each with what
    its production does to the scopes. *)
Ltac statement_cases H :=
  let fuel := fresh "fuel" in
  match type of H with
  | parse_statement_or_block ?f _ = _ =>
      destruct f as [|fuel]; [discriminate|]
  end;
  simpl in H; inv_ok;
  repeat match goal with
  | H : parse_variable_definition _ _ = Ok _ |- _ =>
      apply parse_variable_definition_scopes in H as (? & ? & _ & _ & ?)
  | H : parse_for_loop _ _ = Ok _ |- _ =>
      apply parse_for_loop_scopes in H as (? & ? & _ & _ & ?)
  | H : parse_block _ _ = Ok _ |- _ => apply parse_block_Ok in H as (_ & _ & ?)
  | H : parse_function_definition _ _ = Ok _ |- _ =>
      apply parse_function_definition_Ok in H as (_ & _ & ?)
  | H : parse_if_conditional _ _ = Ok _ |- _ =>
      apply parse_if_conditional_Ok in H as (_ & _ & ?)
  | H : parse_generic_statement _ = Ok _ |- _ =>
      apply parse_generic_statement_Ok in H as [[_ _ ?] _]
  end.

Lemma parse_statement_or_block_scopes fuel self node self' :
  parse_statement_or_block fuel self = Ok (node, self') →
  variable_scopes self' = variable_scopes self ∨
  ∃ t_type t_name, binds t_type t_name self self'.
Proof. intros H. statement_cases H; eauto. Qed.

Lemma binds_defined t_type t_name self self' var_name :
  binds t_type t_name self self' →
  is_variable_defined var_name self = true →
  is_variable_defined var_name self' = true.
Proof.
  unfold is_variable_defined.
  intros (scope & scopes & -> & Hnone & ->) Hdef. simpl in *.
  destruct (decide (var_name = Token.value t_name)) as [->|].
  - rewrite decide_True; [done|]. rewrite lookup_insert_eq. eauto.
  - by rewrite lookup_insert_ne.
Qed.

(** X9.  The variable of the initializer of a for loop is bound in the
    frame that was innermost before the loop, not in a frame of the loop:
    after an accepted loop the scope stack is that before it with this one
    binding added, and the variable still resolves. *)
Theorem for_initializer_outlives_loop fuel self node self' :
  parse_for_loop fuel self = Ok (node, self') →
  ∃ t_type t_name,
    tokens self !! (current self + 3) = Some t_type ∧
    tokens self !! (current self + 4) = Some t_name ∧
    binds t_type t_name self self' ∧
    is_variable_defined (Token.value t_name) self' = true.
Proof.
  intros (t_type & t_name & ? & ? & Hbinds)%parse_for_loop_scopes.
  exists t_type, t_name. repeat split; try done.
  destruct Hbinds as (scope & scopes & _ & _ & Hs').
  unfold is_variable_defined. rewrite Hs'. simpl.
  rewrite decide_True; [done|]. rewrite lookup_insert_eq. eauto.
Qed.

(** X10.  An accepted statement that starts at a "VARIABLE_DEFINITION" or a
    "FOR_LOOP" token adds one name, which the innermost frame did not hold,
    to the innermost frame; an accepted statement of any other kind leaves
    the scope stack as it found it. *)
Theorem only_declarations_change_scopes fuel self token node self' :
  current_token self = Some token →
  parse_statement_or_block fuel self = Ok (node, self') →
  if bool_decide (Token.type token ∈ ["VARIABLE_DEFINITION"; "FOR_LOOP"])
  then ∃ t_type t_name, binds t_type t_name self self'
  else variable_scopes self' = variable_scopes self.
Proof.
  intros Htoken H. statement_cases H; simplify_eq;
    match goal with
    | H : Token.type _ = _ |- _ => rewrite H
    | _ => idtac
    end;
    first [ rewrite bool_decide_eq_true_2 by compute_done; by eauto
          | rewrite bool_decide_eq_false_2 by compute_done; done
          | rewrite bool_decide_eq_false_2; [done|] ].
  rewrite !not_elem_of_cons. repeat split; try done. apply not_elem_of_nil.
Qed.

(** X11.  A name that resolves keeps resolving: after an accepted
    statement, and at the end of the statements of a block or of the
    program, every name that resolved at the start still resolves. *)
Theorem declared_names_persist fuel var_name loop_node self node self' :
  parse_statement_or_block fuel self = Ok (node, self') ∨
  parse_block_loop fuel loop_node self = Ok (node, self') ∨
  parse_loop fuel loop_node self = Ok (node, self') →
  is_variable_defined var_name self = true →
  is_variable_defined var_name self' = true.
Proof.
  assert (∀ fuel self node self',
            parse_statement_or_block fuel self = Ok (node, self') →
            is_variable_defined var_name self = true →
            is_variable_defined var_name self' = true) as Hstatement.
  { intros ???? [Heq | (? & ? & ?)]%parse_statement_or_block_scopes ?.
    - unfold is_variable_defined. by rewrite Heq.
    - eauto using binds_defined. }
  intros [H | [H | H]]; [by eauto| |]; revert loop_node self H.
  - induction fuel as [|fuel IH]; intros loop_node self H Hdef;
      [discriminate|].
    simpl in H. inv_ok; eauto.
  - induction fuel as [|fuel IH]; intros loop_node self H Hdef;
      [discriminate|].
    simpl in H. inv_ok; eauto.
Qed.

Lemma declared_names_persist_witness :
  ∃ node self',
    parse_block_loop 10 (Node.new "Block" "") inside_block = Ok (node, self') ∧
    is_variable_defined "x" inside_block = true ∧
    is_variable_defined "x" self' = true.
Proof.
  eexists _, _.
  assert (∀ A B : Prop, A → (A → B) → A ∧ B) as both by tauto.
  apply both; [vm_compute; reflexivity|].
  intros H. split; [reflexivity|].
  eapply (declared_names_persist 10 "x" (Node.new "Block" "") inside_block);
    [right; left; exact H | reflexivity].
Defined.

Lemma for_initializer_outlives_loop_witness :
  ∃ node self',
    parse_for_loop 10 counting_loop = Ok (node, self') ∧
    ∃ t_type t_name,
      tokens counting_loop !! (current counting_loop + 3) = Some t_type ∧
      tokens counting_loop !! (current counting_loop + 4) = Some t_name ∧
      binds t_type t_name counting_loop self' ∧
      is_variable_defined (Token.value t_name) self' = true.
Proof.
  eexists _, _.
  assert (∀ A B : Prop, A → (A → B) → A ∧ B) as both by tauto.
  apply both; [vm_compute; reflexivity|].
  apply for_initializer_outlives_loop.
Defined.

Lemma only_declarations_change_scopes_witness :
  ∃ node self',
    parse_statement_or_block 11 counting_loop = Ok (node, self') ∧
    ∃ t_type t_name, binds t_type t_name counting_loop self'.
Proof.
  eexists _, _.
  assert (∀ A B : Prop, A → (A → B) → A ∧ B) as both by tauto.
  apply both; [vm_compute; reflexivity|].
  apply (only_declarations_change_scopes 11 counting_loop (tok "FOR_LOOP" "for")).
  reflexivity.
Defined.

(** ** Strings *)

Lemma string_app_cons c (s1 s2 : string) :
  String c s1 +:+ s2 = String c (s1 +:+ s2).
Proof. reflexivity. Qed.

Lemma string_app_assoc (s1 s2 s3 : string) :
  s1 +:+ (s2 +:+ s3) = (s1 +:+ s2) +:+ s3.
Proof.
  induction s1 as [|c s1 IH]; [done|]. by rewrite !string_app_cons, IH.
Qed.

Lemma string_app_nil_r (s : string) : s +:+ "" = s.
Proof. induction s as [|c s IH]; [done|]. by rewrite string_app_cons, IH. Qed.

(** ** The text of a tree *)

Lemma join_app (l1 l2 : list string) : join (l1 ++ l2) = join l1 +:+ join l2.
Proof.
  induction l1 as [|s l1 IH]; simpl; [done|].
  by rewrite IH, string_app_assoc.
Qed.

Lemma node_children_ind (P : Node.t → Prop) :
  (∀ type_ value children,
     Forall P children → P (Node.mk type_ value children)) →
  ∀ node, P node.
Proof.
  intros Hmk. fix IH 1. intros [type_ value children]. apply Hmk.
  induction children as [|child children IHchildren]; constructor.
  - apply IH.
  - apply IHchildren.
Qed.

Lemma foldl_string_app {A} (f : A → string) (text : string) (l : list A) :
  foldl (λ text x, text +:+ f x) text l = text +:+ join (map f l).
Proof.
  revert text. induction l as [|x l IH]; intros text; simpl.
  - by rewrite string_app_nil_r.
  - by rewrite IH, string_app_assoc.
Qed.

Lemma print_tree_children type_ value children level :
  Node.print_tree (Node.mk type_ value children) level
  = row (level, type_, value)
    +:+ join (map (λ child, Node.print_tree child (S level)) children).
Proof. simpl. apply foldl_string_app. Qed.

(** X12.  The text of a tree is the lines of its nodes in pre-order, each
    line being two spaces per level of depth, the type, the value in
    parentheses and a line feed; it has one line per node. *)
Theorem print_tree_preorder node level :
  Node.print_tree node level = join (map row (preorder node level)) ∧
  length (preorder node level) = nodes node.
Proof.
  revert level. induction node as [type_ value children IH] using node_children_ind.
  intros level. rewrite print_tree_children. simpl.
  assert (join (map (λ child, Node.print_tree child (S level)) children)
          = join (map row (flat_map (λ child, preorder child (S level)) children))
          ∧ length (flat_map (λ child, preorder child (S level)) children)
            = list_sum (map nodes children)) as [-> ->]; [|done].
  induction IH as [|child children [Hchild Hnodes]%(λ H, H (S level)) _
                     [IHtext IHnodes]];
    simpl; [done|].
  rewrite map_app, join_app, length_app, Hchild, Hnodes, IHtext, IHnodes. done.
Qed.

(** ** White space at the ends of a line *)

Lemma string_rev_app_app (s1 s2 : string) :
  String.rev_app s1 s2 = String.rev s1 +:+ s2.
Proof.
  unfold String.rev. revert s2.
  induction s1 as [|c s1 IH]; intros s2; simpl; [done|].
  rewrite IH, (IH (String c "")). by rewrite <- string_app_assoc.
Qed.

Lemma string_rev_cons c (s : string) : String.rev (String c s) = String.rev s +:+ String c "".
Proof. unfold String.rev at 1. simpl. apply string_rev_app_app. Qed.

Lemma string_rev_app (s1 s2 : string) :
  String.rev (s1 +:+ s2) = String.rev s2 +:+ String.rev s1.
Proof.
  induction s1 as [|c s1 IH].
  - by rewrite string_app_nil_r.
  - by rewrite string_app_cons, !string_rev_cons, IH, string_app_assoc.
Qed.

Lemma string_rev_involutive (s : string) : String.rev (String.rev s) = s.
Proof.
  induction s as [|c s IH]; [done|].
  by rewrite string_rev_cons, string_rev_app, IH.
Qed.

Lemma lstrip_app (s1 s2 : string) :
  s1 ≠ "" → starts_with_space s1 = false → lstrip (s1 +:+ s2) = s1 +:+ s2.
Proof.
  destruct s1 as [|c s1]; [done|]. simpl. intros _ Hc.
  rewrite string_app_cons. simpl. by rewrite Hc.
Qed.

Lemma strip_token_line token :
  starts_with_space (Token.type token) = false →
  Token.value token ≠ "" →
  starts_with_space (String.rev (Token.value token)) = false →
  strip (token_line token) = Token.type token +:+ ", " +:+ Token.value token.
Proof.
  destruct token as [type_ value]. unfold token_line, strip, rstrip. simpl.
  intros Htype Hvalue Hend.
  assert (lstrip (type_ +:+ ", " +:+ value +:+ newline)
          = type_ +:+ ", " +:+ value +:+ newline) as ->.
  { destruct type_ as [|c type_]; [done|]. by apply lstrip_app. }
  replace (type_ +:+ ", " +:+ value +:+ newline)
    with ((type_ +:+ ", " +:+ value) +:+ newline)
    by (by rewrite <- !string_app_assoc).
  rewrite string_rev_app.
  change (String.rev newline) with newline.
  change (lstrip (newline +:+ ?s)) with (lstrip s).
  rewrite (string_app_assoc type_), string_rev_app.
  rewrite lstrip_app.
  - by rewrite <- string_rev_app, string_rev_involutive, <- string_app_assoc.
  - intros Hrev. apply Hvalue. by rewrite <- (string_rev_involutive value), Hrev.
  - done.
Qed.

(** ** Cutting a line at the separator *)

Lemma string_prefix_cons c sep d s :
  String.prefix (String c sep) (String d s)
  = bool_decide (c = d) && String.prefix sep s.
Proof. simpl. destruct (ascii_dec c d); by case_bool_decide. Qed.

Lemma string_prefix_spec (sep s : string) :
  String.prefix sep s = true
  ↔ s = sep +:+ string_drop (String.length sep) s.
Proof.
  revert s. induction sep as [|c sep IH]; intros [|d s]; try done.
  rewrite string_prefix_cons, andb_true_iff, bool_decide_eq_true, IH. simpl.
  rewrite string_app_cons. split.
  - intros [-> <-]. done.
  - intros [= -> Hs]. done.
Qed.

Lemma string_drop_app (s1 s2 : string) :
  string_drop (String.length s1) (s1 +:+ s2) = s2.
Proof. induction s1 as [|c s1 IH]; [by destruct s2|]. done. Qed.

Lemma string_prefix_app (sep s : string) : String.prefix sep (sep +:+ s) = true.
Proof. apply string_prefix_spec. by rewrite string_drop_app. Qed.

Lemma string_prefix_app_l (sep s1 s2 : string) :
  String.prefix sep s1 = true → String.prefix sep (s1 +:+ s2) = true.
Proof.
  intros Hs%string_prefix_spec. rewrite Hs, <- string_app_assoc. apply string_prefix_app.
Qed.

Lemma contains_cons sep c s :
  contains sep (String c s) →
  String.prefix sep (String c s) = true ∨ contains sep s.
Proof.
  intros ([|d a] & b & Hs).
  - left. rewrite Hs. exact (string_prefix_app sep b).
  - right. rewrite string_app_cons in Hs. injection Hs as _ ->. by exists a, b.
Qed.

Lemma split_once_Some sep s before after :
  sep ≠ "" →
  split_once sep s = Some (before, after) →
  s = before +:+ sep +:+ after ∧ ¬ contains sep before.
Proof.
  intros Hsep. revert before.
  induction s as [|c s IH]; intros before.
  - simpl. destruct sep; [done|]. done.
  - intros H. cbn [split_once] in H.
    destruct (String.prefix sep (String c s)) eqn:Hprefix.
    + injection H as <- <-. split; [by apply string_prefix_spec|].
      intros (a & b & Hab). destruct a, sep; done.
    + destruct (split_once sep s) as [[before' after']|] eqn:Hsplit; [|done].
      injection H as <- <-.
      destruct (IH before' eq_refl) as [-> Hnot]. split; [done|].
      intros [Hpre | ?]%contains_cons; [|done].
      apply (string_prefix_app_l _ _ (sep +:+ after')) in Hpre.
      rewrite string_app_cons in Hpre. congruence.
Qed.

Lemma split_once_None sep s :
  split_once sep s = None → ¬ contains sep s.
Proof.
  induction s as [|c s IH]; cbn [split_once].
  - destruct sep as [|d sep]; [done|]. intros _ ([|] & b & Hab); done.
  - destruct (String.prefix sep (String c s)) eqn:Hprefix; [done|].
    destruct (split_once sep s) as [[]|]; [done|].
    intros _ [Hpre | ?]%contains_cons; [congruence|]. by apply IH.
Qed.

Lemma split_once_separator (type_ value : string) :
  ¬ contains ", " type_ →
  split_once ", " (type_ +:+ ", " +:+ value) = Some (type_, value).
Proof.
  induction type_ as [|c type_ IH]; intros Hnot; [by destruct value|].
  rewrite string_app_cons.
  assert (String.prefix ", " (String c (type_ +:+ ", " +:+ value)) = false)
    as Hprefix.
  { apply not_true_is_false. intros Hpre%string_prefix_spec. simpl in Hpre.
    injection Hpre as -> Hrest. apply Hnot.
    destruct type_ as [|d type_]; [done|].
    rewrite string_app_cons in Hrest. injection Hrest as ->.
    by exists "", type_. }
  cbn [split_once]. rewrite Hprefix, IH; [done|].
  intros (a & b & ->). apply Hnot. by exists (String c a), b.
Qed.

(** ** Reading the tokens *)

Lemma load_tokens_app (lines1 lines2 : list string) :
  load_tokens (lines1 ++ lines2) = (load_tokens lines1 ++ load_tokens lines2)%list.
Proof.
  unfold load_tokens. rewrite foldl_app.
  generalize (foldl (λ (tokens : list Token.t) line,
                       match split1 ", " (strip line) with
                       | [type_; value] => (tokens ++ [Token.new type_ value])%list
                       | _ => tokens
                       end) [] lines1) as tokens1.
  induction lines2 as [|line lines2 IH] using rev_ind; intros tokens1.
  - by rewrite app_nil_r.
  - rewrite !foldl_app. simpl. rewrite IH.
    destruct (split1 ", " (strip line)) as [|? [|? [|]]];
      by rewrite ?app_nil_r, ?app_assoc.
Qed.

Lemma load_tokens_cons line (lines : list string) :
  load_tokens (line :: lines) = (load_tokens [line] ++ load_tokens lines)%list.
Proof. apply (load_tokens_app [line]). Qed.

Lemma load_tokens_line line :
  load_tokens [line]
  = match split_once ", " (strip line) with
    | Some (type_, value) => [Token.new type_ value]
    | None => []
    end.
Proof.
  unfold load_tokens, split1. simpl.
  by destruct (split_once ", " (strip line)) as [[]|].
Qed.

(** X13.  [load_tokens] reads the lines one by one and in order.  A line
    whose text without the surrounding white space has the separator ", "
    in it gives one token: the type is the text before the first separator,
    the value all the text after it.  Any other line is skipped. *)
Theorem line_cut_at_first_separator before line after :
  (∃ type_ value,
     strip line = type_ +:+ ", " +:+ value ∧ ¬ contains ", " type_ ∧
     load_tokens (before ++ line :: after)
     = (load_tokens before ++ Token.new type_ value :: load_tokens after)%list) ∨
  (¬ contains ", " (strip line) ∧
   load_tokens (before ++ line :: after)
   = (load_tokens before ++ load_tokens after)%list).
Proof.
  rewrite (load_tokens_app before (line :: after)).
  rewrite (load_tokens_cons line after), load_tokens_line.
  destruct (split_once ", " (strip line)) as [[type_ value]|] eqn:Hsplit.
  - left. exists type_, value.
    apply split_once_Some in Hsplit as [? ?]; done.
  - right. split; [by apply split_once_None|done].
Qed.

Lemma unbroken_app (s1 s2 : string) :
  unbroken (s1 +:+ s2) = unbroken s1 && unbroken s2.
Proof.
  induction s1 as [|c s1 IH]; [done|].
  rewrite string_app_cons. simpl. rewrite IH. by rewrite andb_assoc.
Qed.

Lemma token_line_file_line token :
  unbroken (Token.type token) = true → unbroken (Token.value token) = true →
  file_line (token_line token).
Proof.
  intros Htype Hvalue. exists (Token.type token +:+ ", " +:+ Token.value token).
  split.
  - unfold token_line. by rewrite <- !string_app_assoc.
  - rewrite !unbroken_app, Htype, Hvalue. done.
Qed.

(** X14.  [load_tokens] reads tokens back.  Take tokens whose types have no
    ", " in them and no white space at their start, whose values are not
    empty and have no white space at their end (a value may have the
    separator in it), and whose types and values have no line feed and no
    carriage return in them.  The texts made, for each token, of its type,
    ", ", its value and a line feed are lines as the iteration over a text
    file gives them, and from these lines [load_tokens] returns the tokens
    as they were. *)
Theorem load_tokens_reads_back (tokens : list Token.t) :
  Forall writable tokens →
  Forall file_line (map token_line tokens) ∧
  load_tokens (map token_line tokens) = tokens.
Proof.
  induction 1
    as [|token tokens (Hsep & Hstart & Hvalue & Hend & Htype & Hbreak) _
          [IHlines IH]];
    [done|].
  split.
  - simpl. apply Forall_cons_2; [by apply token_line_file_line|done].
  - simpl. rewrite load_tokens_cons, IH, load_tokens_line.
    rewrite strip_token_line by done.
    rewrite split_once_separator by done. by destruct token.
Qed.

Lemma contains_split_once sep s :
  sep ≠ "" → contains sep s → is_Some (split_once sep s).
Proof.
  intros Hsep Hs. destruct (split_once sep s) eqn:Hsplit; [done|].
  by apply split_once_None in Hsplit.
Qed.

Lemma load_tokens_reads_back_witness :
  Forall file_line (map token_line written_tokens) ∧
  load_tokens (map token_line written_tokens) = written_tokens.
Proof.
  apply (load_tokens_reads_back written_tokens).
  repeat (apply Forall_cons_2;
          [split; [|done];
           intros [? Hs]%contains_split_once; [|done];
           vm_compute in Hs; discriminate Hs |]).
  apply Forall_nil_2.
Defined.

(** ** The main program *)

(** X15.  The ways in which the program ends.  If "tokens.krn" cannot be
    opened, the [OSError] of [open] is not caught.  If the calls of the run
    nest deeper than the interpreter allows, the program prints "Error: "
    and the message of the [RecursionError].  Otherwise one of three:
    the tokens are accepted, and the program writes the tree, whose text
    starts with the line "Program()" followed by the texts of the
    statements at depth one, or ends with the [OSError] of [open] if
    "tree.krn" cannot be opened; or the program prints "Error: " and the
    message of an error of the parser, which is never that of mismatched
    block delimiters nor that of an unexpected end of input; or, on
    tokens that stop right after the "(" of a for loop, the program ends
    with an [AttributeError] that is not caught. *)
Theorem main_outcomes world :
  match tokens_krn world, recursion_error world with
  | None, _ => main world = Ok FileError
  | Some lines, Some text =>
      main world = Ok (Printed ("Error: " +:+ text +:+ newline))
  | Some lines, None =>
      (∃ statements self',
         run (load_tokens lines) = Ok (Node.mk "Program" "" statements, self') ∧
         main world
         = Ok (if tree_krn_opens world
               then Written
                      ("Program()" +:+ newline
                       +:+ join (map (λ statement, Node.print_tree statement 1)
                                     statements))
               else FileError)) ∨
      (∃ e,
         run (load_tokens lines) = Raise (Runtime e) ∧
         e ≠ MismatchedBlockDelimiters ∧ e ≠ UnexpectedEndOfInput ∧
         main world = Ok (Printed ("Error: " +:+ message e +:+ newline))) ∨
      (run (load_tokens lines) = Raise AttributeError ∧
       truncated_for (load_tokens lines) ∧
       main world = Ok (ParserCrash AttributeError))
  end.
Proof.
  unfold main.
  destruct (tokens_krn world) as [lines|]; [|done].
  destruct (recursion_error world) as [text|]; [done|]. simpl.
  destruct (run_outcomes (load_tokens lines))
    as [(tree & self' & Hrun & _) | [(e & Hrun & ? & ?) | [Hrun ?]]];
    rewrite Hrun.
  - left. unfold run, parse in Hrun. inv_ok.
    match goal with
    | H : parse_loop _ _ _ = Ok _ |- _ =>
        apply parse_loop_tree in H as (statements & -> & _); [|done]
    end.
    exists statements, self'. split; [done|].
    rewrite print_tree_children. by destruct (tree_krn_opens world).
  - right. left. by exists e.
  - right. right. done.
Qed.
